(** * Duplicate_Checker: the matching core of the company duplicate checker

    A shallow embedding of [Duplicate_Checker.py]: the name normaliser
    ([normalize_name]), the n-gram index ([get_ngrams],
    [create_ngram_index], [find_candidates]), the batch matcher
    ([process_batch]) and the part of the main block that chunks the
    prospects, collects the matches and sorts them.

    Conventions of the embedding.
    - A Python [str] is a [string] of the Standard Library: a sequence of
      code points below 256.  The character tables ([lower_char],
      [is_word], [is_space]) are the ones of CPython for that range; this
      range is closed under everything the program does to a name.
    - A cell of a name column is a [pyobj]: a string or something else.
    - [re.sub] is a left-to-right scan ([re_sub]); each pattern of the
      source is given by its matcher.
    - A Python [dict] is a [gmap], a Python [set] a [gset]; iterating a set
      is iterating [elements] of it.
    - [fuzz.ratio] of rapidfuzz is the normalised Indel similarity, kept as
      an exact rational ([Q]) instead of a double. *)

From Stdlib Require Import QArith Lqa Ascii String Permutation Sorted.
From stdpp Require Import gmap strings list fin_maps sorting.

Local Open Scope string_scope.

(** ** Characters *)

Definition code (c : ascii) : N := N_of_ascii c.

Definition in_range (lo hi : N) (c : ascii) : bool :=
  ((lo <=? code c) && (code c <=? hi))%N.

(** [str.lower()] on one code point: A-Z and the upper-case letters of the
    Latin-1 supplement move by 32. *)
Definition lower_char (c : ascii) : ascii :=
  if in_range 65 90 c || in_range 192 214 c || in_range 216 222 c
  then ascii_of_N (code c + 32)
  else c.

(** [\w] of a [str] pattern: alphanumeric code points and the underscore. *)
Definition is_word (c : ascii) : bool :=
  in_range 48 57 c || in_range 65 90 c || (code c =? 95)%N
  || in_range 97 122 c
  || (code c =? 170)%N || in_range 178 179 c || (code c =? 181)%N
  || in_range 185 186 c || in_range 188 190 c
  || in_range 192 214 c || in_range 216 246 c || in_range 248 255 c.

(** [\s] of a [str] pattern, which is also what [str.strip()] removes. *)
Definition is_space (c : ascii) : bool :=
  in_range 9 13 c || in_range 28 32 c || (code c =? 133)%N
  || (code c =? 160)%N.

(** The class [a-z0-9 ] whose complement step 5 of the normaliser deletes. *)
Definition is_kept (c : ascii) : bool :=
  in_range 97 122 c || in_range 48 57 c || (code c =? 32)%N.

(** ** Strings *)

Fixpoint lower (s : string) : string :=
  match s with
  | EmptyString => EmptyString
  | String c s' => String (lower_char c) (lower s')
  end.

Definition head (s : string) : option ascii :=
  match s with
  | EmptyString => None
  | String c _ => Some c
  end.

(** The last character of [w], or [d] when [w] is empty. *)
Fixpoint last_char (d : option ascii) (w : string) : option ascii :=
  match w with
  | EmptyString => d
  | String c w' => last_char (Some c) w'
  end.

(** [strip_prefix w s] is what follows [w] in [s] when [s] starts with [w]. *)
Fixpoint strip_prefix (w s : string) : option string :=
  match w with
  | EmptyString => Some s
  | String a w' =>
      match s with
      | EmptyString => None
      | String b s' => if Ascii.eqb a b then strip_prefix w' s' else None
      end
  end.

Fixpoint lstrip (s : string) : string :=
  match s with
  | EmptyString => EmptyString
  | String c s' => if is_space c then lstrip s' else s
  end.

Fixpoint rstrip (s : string) : string :=
  match s with
  | EmptyString => EmptyString
  | String c s' =>
      match rstrip s' with
      | EmptyString => if is_space c then EmptyString else String c EmptyString
      | r => String c r
      end
  end.

(** [str.strip()] *)
Definition strip (s : string) : string := rstrip (lstrip s).

(** ** Regular-expression substitution *)

(** A pattern is given by its matcher: [m prev s] is the length of the match
    of the pattern at the start of [s], where [prev] is the character that
    precedes [s] in the subject ([None] at its start).  No pattern of the
    program matches the empty string. *)
Definition matcher : Type := option ascii -> string -> option nat.

(** [re.sub]: scan from the left; where the pattern matches, emit the
    replacement and skip the match, otherwise copy one character.  [skip]
    counts the characters of the current match still to be dropped. *)
Fixpoint sub_scan (m : matcher) (repl : string) (skip : nat)
    (prev : option ascii) (s : string) : string :=
  match s with
  | EmptyString => EmptyString
  | String c s' =>
      match skip with
      | S k => sub_scan m repl k (Some c) s'
      | O =>
          match m prev s with
          | Some len => repl ++ sub_scan m repl (Nat.pred len) (Some c) s'
          | None => String c (sub_scan m repl 0 (Some c) s')
          end
      end
  end.

Definition re_sub (m : matcher) (repl : string) (s : string) : string :=
  sub_scan m repl 0 None s.

(** Number of characters up to and including the first [c] of [s]. *)
Fixpoint find_close (c : ascii) (s : string) : option nat :=
  match s with
  | EmptyString => None
  | String x s' => if Ascii.eqb x c then Some 1%nat else S <$> find_close c s'
  end.

(** The patterns [\([^)]*\)], [\[[^\]]*\]] and [\{[^}]*\}]: an opening
    delimiter, then everything up to the nearest closing one. *)
Definition pat_bracket (o c : ascii) : matcher := fun _ s =>
  match s with
  | EmptyString => None
  | String x s' => if Ascii.eqb x o then S <$> find_close c s' else None
  end.

Definition word_opt (c : option ascii) : bool :=
  match c with
  | Some c => is_word c
  | None => false
  end.

(** [\b] between two neighbouring positions: exactly one side is a word
    character; outside the subject counts as not a word character. *)
Definition boundary (before after : option ascii) : bool :=
  xorb (word_opt before) (word_opt after).

(** The pattern [r'\b' + re.escape(w) + r'\b']. *)
Definition pat_word (w : string) : matcher := fun prev s =>
  if boundary prev (head s) then
    match strip_prefix w s with
    | Some rest =>
        if boundary (last_char prev w) (head rest)
        then Some (String.length w) else None
    | None => None
    end
  else None.

(** The pattern [[^a-z0-9 ]]. *)
Definition pat_not_kept : matcher := fun _ s =>
  match s with
  | EmptyString => None
  | String c _ => if is_kept c then None else Some 1%nat
  end.

Fixpoint count_spaces (s : string) : nat :=
  match s with
  | EmptyString => 0
  | String c s' => if is_space c then S (count_spaces s') else 0
  end.

(** The pattern [\s+]. *)
Definition pat_spaces : matcher := fun _ s =>
  match count_spaces s with
  | O => None
  | n => Some n
  end.

(** ** Settings *)

Definition COMMON_SUFFIXES : list string :=
  [ "private limited"; "pvt ltd"; "pvt. ltd."; "pvt. ltd"; "pvt ltd.";
    "pvt."; "pvt";
    "llp"; "inc"; "corporation"; "limited"; "ltd."; "ltd"; "co"; "company";
    "group"; "holdings"; "international"; "enterprises"; "solutions";
    "services"; "corp"; "incorporated" ].

Definition COMMON_REMOVE_WORDS : list string := [ "india"; "INDIA" ].

Definition SIMILARITY_THRESHOLD : Q := 90.

Definition BATCH_SIZE : nat := 1000.

(** ** Names *)

(** A value found in a name column. *)
Inductive pyobj : Type :=
  | PyStr (s : string)
  | PyNone
  | PyNum (z : Z).

(** [normalize_name] *)
Definition normalize_name (name : pyobj) : string :=
  match name with
  | PyStr name =>
      let name := lower name in
      let name := re_sub (pat_bracket "(" ")") "" name in
      let name := re_sub (pat_bracket "[" "]") "" name in
      let name := re_sub (pat_bracket "{" "}") "" name in
      let name :=
        fold_left (fun name word => re_sub (pat_word (lower word)) "" name)
          COMMON_REMOVE_WORDS name in
      let name :=
        fold_left (fun name suffix => re_sub (pat_word suffix) "" name)
          COMMON_SUFFIXES name in
      let name := re_sub pat_not_kept "" name in
      let name := re_sub pat_spaces " " name in
      strip name
  | _ => ""
  end.

(** ** The n-gram index *)

(** A registry entry as the index holds it: the raw name and its normal
    form. *)
Definition name_tuple : Type := pyobj * string.

Global Instance pyobj_eq_dec : EqDecision pyobj.
Proof. solve_decision. Defined.

Global Instance pyobj_countable : Countable pyobj.
Proof.
  refine (inj_countable'
    (fun o => match o with
              | PyStr s => inl s
              | PyNone => inr (inl tt)
              | PyNum z => inr (inr z)
              end)
    (fun e => match e with
              | inl s => PyStr s
              | inr (inl _) => PyNone
              | inr (inr z) => PyNum z
              end) _).
  intros []; reflexivity.
Defined.

(** [get_ngrams] *)
Definition get_ngrams (name : string) (n : nat) : gset string :=
  if (String.length name <? n)%nat then {[ name ]}
  else list_to_set
         ((fun i => substring i n name)
            <$> seq 0 (String.length name - n + 1)).

(** The body of the innermost loop of [create_ngram_index]: create the
    bucket of [ngram] when it is missing, then append the entry to it. *)
Definition index_append (entry : name_tuple)
    (index : gmap string (list name_tuple)) (ngram : string)
    : gmap string (list name_tuple) :=
  let index :=
    match index !! ngram with
    | None => <[ngram := []]> index
    | Some _ => index
    end in
  alter (fun bucket => (bucket ++ [entry])%list) ngram index.

(** The body of the outer loop of [create_ngram_index]: an entry whose
    normal form is empty is passed over, any other is appended to the
    bucket of each of its n-grams. *)
Definition index_entry (n : nat) (index : gmap string (list name_tuple))
    (entry : name_tuple) : gmap string (list name_tuple) :=
  let '(name, norm_name) := entry in
  match norm_name with
  | EmptyString => index
  | _ =>
      fold_left (index_append entry) (elements (get_ngrams norm_name n))
        index
  end.

(** [create_ngram_index] *)
Definition create_ngram_index (names : list name_tuple) (n : nat)
    : gmap string (list name_tuple) :=
  fold_left (index_entry n) names ∅.

(** [find_candidates] *)
Definition find_candidates (norm_prospect : string)
    (ngram_index : gmap string (list name_tuple)) (n : nat)
    : gset name_tuple :=
  match norm_prospect with
  | EmptyString => ∅
  | _ =>
      fold_left
        (fun candidates ngram =>
           match ngram_index !! ngram with
           | Some bucket =>
               fold_left (fun candidates candidate =>
                            candidates ∪ {[ candidate ]})
                 bucket candidates
           | None => candidates
           end)
        (elements (get_ngrams norm_prospect n)) ∅
  end.

(** ** The similarity score *)

(** The program scores with [fuzz.ratio] of the rapidfuzz library, which
    is [Indel.normalized_similarity] scaled to 0..100:
    [distance = len(a) + len(b) - 2 * lcs(a, b)],
    [normalized_distance = distance / (len(a) + len(b))] (0 for two empty
    strings), [normalized_similarity = 1 - normalized_distance] and
    [ratio = normalized_similarity * 100].  The library returns a double;
    the embedding keeps the exact rational. *)

(** Length of a longest common subsequence. *)
Fixpoint lcs_len (a b : string) : nat :=
  match a with
  | EmptyString => 0
  | String x a' =>
      (fix row (b : string) : nat :=
         match b with
         | EmptyString => 0
         | String y b' =>
             if Ascii.eqb x y then S (lcs_len a' b')
             else Nat.max (lcs_len a' b) (row b')
         end) b
  end.

(** The Indel distance: insertions and deletions that turn [a] into [b]. *)
Definition indel_distance (a b : string) : nat :=
  String.length a + String.length b - 2 * lcs_len a b.

Definition normalized_distance (a b : string) : Q :=
  let maximum := (String.length a + String.length b)%nat in
  if (maximum =? 0)%nat then 0
  else inject_Z (Z.of_nat (indel_distance a b)) / inject_Z (Z.of_nat maximum).

Definition normalized_similarity (a b : string) : Q :=
  1 - normalized_distance a b.

(** [fuzz.ratio]: the score is kept in lowest terms, so that equal scores
    are equal terms. *)
Definition ratio (a b : string) : Q :=
  Qred (normalized_similarity a b * 100).

(** ** Matching *)

Record MatchRecord : Type := {
  Prospect : pyobj;
  Matched_Salesforce_Entry : pyobj;
  Similarity : Q;
  Normalized_Prospect : string;
  Normalized_Salesforce : string
}.

(** The body of the inner loop of [process_batch]: score one candidate and
    append a record when the score reaches the threshold. *)
Definition score_candidate (threshold : Q) (prospect : pyobj)
    (norm_prospect : string) (batch_matches : list MatchRecord)
    (candidate : name_tuple) : list MatchRecord :=
  let '(existing_name, norm_existing) := candidate in
  let score := ratio norm_prospect norm_existing in
  if Qle_bool threshold score then
    (batch_matches ++
       [ {| Prospect := prospect;
            Matched_Salesforce_Entry := existing_name;
            Similarity := score;
            Normalized_Prospect := norm_prospect;
            Normalized_Salesforce := norm_existing |} ])%list
  else batch_matches.

(** [process_batch]; the setting [SIMILARITY_THRESHOLD] it reads is the
    argument [threshold]. *)
Definition process_batch (threshold : Q) (batch : list pyobj)
    (sf_normalized_dict : gmap pyobj string)
    (ngram_index : gmap string (list name_tuple)) : list MatchRecord :=
  fold_left
    (fun batch_matches prospect =>
       let norm_prospect := normalize_name prospect in
       match norm_prospect with
       | EmptyString => batch_matches
       | _ =>
           let candidates := find_candidates norm_prospect ngram_index 2 in
           fold_left (score_candidate threshold prospect norm_prospect)
             (elements candidates) batch_matches
       end)
    batch [].

(** ** The main block *)

(** [l[i:j]] for [0 <= i <= j]. *)
Definition slice {A : Type} (l : list A) (i j : nat) : list A :=
  take (j - i) (drop i l).

Fixpoint range_from (fuel start stop step : nat) : list nat :=
  match fuel with
  | O => []
  | S fuel' =>
      if (start <? stop)%nat
      then start :: range_from fuel' (start + step) stop step
      else []
  end.

(** [range(start, stop, step)] for a step that is not negative; a step of
    zero raises [ValueError]. *)
Definition range (start stop step : nat) : option (list nat) :=
  match step with
  | O => None
  | _ => Some (range_from stop start stop step)
  end.

(** [dict(pairs)]: a later pair overrides an earlier one with the same key. *)
Definition dict (pairs : list name_tuple) : gmap pyobj string :=
  list_to_map (reverse pairs).

(** The registry side of the main block: normalise, drop the entries whose
    normal form is empty. *)
Definition sf_tuples_of (sf_list : list pyobj) : list name_tuple :=
  filter (fun t : name_tuple => t.2 ≠ "")
    ((fun name => (name, normalize_name name)) <$> sf_list).

(** The list comprehension that cuts the prospects into batches. *)
Definition make_batches {A : Type} (batch_size : nat) (l : list A)
    : option (list (list A)) :=
  match range 0 (length l) batch_size with
  | Some starts => Some (map (fun i => slice l i (i + batch_size)) starts)
  | None => None
  end.

(** The loop over the batches: [matches.extend(batch_matches)]. *)
Definition collect_matches (threshold : Q)
    (sf_normalized_dict : gmap pyobj string)
    (ngram_index : gmap string (list name_tuple))
    (batches : list (list pyobj)) : list MatchRecord :=
  fold_left
    (fun matches batch =>
       (matches ++
          process_batch threshold batch sf_normalized_dict ngram_index)%list)
    batches [].

(** The matching part of the main block: build the index, cut the
    prospects into batches of [batch_size] and collect the matches of every
    batch.  [None] is the [ValueError] of a batch size of zero. *)
Definition main_matches (threshold : Q) (batch_size : nat)
    (prospects_list sf_list : list pyobj) : option (list MatchRecord) :=
  let sf_tuples := sf_tuples_of sf_list in
  let ngram_index := create_ngram_index sf_tuples 2 in
  match make_batches batch_size prospects_list with
  | Some batches =>
      Some (collect_matches threshold (dict sf_tuples) ngram_index batches)
  | None => None
  end.

(** ** The output stage *)

(** Rows in the order [ascending=False] asks for: scores do not increase. *)
Definition by_score_desc (r1 r2 : MatchRecord) : Prop :=
  (Similarity r2 <= Similarity r1)%Q.

(** [DataFrame.sort_values('Similarity %', ascending=False)].  The call
    leaves [kind] at its default, 'quicksort', which pandas documents as not
    stable: the rows come out by decreasing score, and which of the orders
    of equal scores comes out is up to numpy's sorting kernel.  The
    embedding therefore gives the call as a relation between the rows and
    any order it may return. *)
Definition sort_values_desc (rows sorted : list MatchRecord) : Prop :=
  Permutation rows sorted /\ Sorted by_score_desc sorted.

Global Instance by_score_desc_dec : RelDecision by_score_desc.
Proof.
  intros r1 r2. unfold by_score_desc.
  destruct (Qlt_le_dec (Similarity r1) (Similarity r2)) as [H|H].
  - right. lra.
  - left. exact H.
Defined.

Global Instance by_score_desc_total : Total by_score_desc.
Proof.
  intros r1 r2. unfold by_score_desc.
  destruct (Qlt_le_dec (Similarity r1) (Similarity r2)) as [H|H].
  - right. lra.
  - left. exact H.
Qed.

Global Instance by_score_desc_trans : Transitive by_score_desc.
Proof. intros r1 r2 r3. unfold by_score_desc. lra. Qed.

(** What the run ends with: the message that nothing was found, or the rows
    written to the report. *)
Inductive report : Type :=
  | NoDuplicates
  | Saved (rows : list MatchRecord).

(** The [if matches: ... else: ...] that closes the main block. *)
Inductive main_output (matches : list MatchRecord) : report -> Prop :=
  | output_none :
      matches = [] -> main_output matches NoDuplicates
  | output_saved (rows : list MatchRecord) :
      matches <> [] -> sort_values_desc matches rows ->
      main_output matches (Saved rows).

Definition rows_of (r : report) : list MatchRecord :=
  match r with
  | NoDuplicates => []
  | Saved rows => rows
  end.

(** ** Properties the statements are about *)

Fixpoint string_forall (P : ascii -> bool) (s : string) : bool :=
  match s with
  | EmptyString => true
  | String c s' => P c && string_forall P s'
  end.

Definition space_opt (c : option ascii) : bool :=
  match c with
  | Some c => is_space c
  | None => false
  end.

(** No two neighbouring characters of [s] are both whitespace. *)
Fixpoint single_spaced (s : string) : bool :=
  match s with
  | EmptyString => true
  | String c s' => negb (is_space c && space_opt (head s')) && single_spaced s'
  end.

(** The shape of a normal form: only [a-z0-9 ], no whitespace at either
    end, no two neighbouring spaces. *)
Definition normal_form (s : string) : bool :=
  string_forall is_kept s && single_spaced s
  && negb (space_opt (head s)) && negb (space_opt (last_char None s)).

(** The pattern [m] matches nowhere in [s]. *)
Fixpoint no_match (m : matcher) (prev : option ascii) (s : string) : bool :=
  match s with
  | EmptyString => true
  | String c s' =>
      match m prev s with
      | Some _ => false
      | None => no_match m (Some c) s'
      end
  end.

(** [w] occurs in [s] between word boundaries. *)
Definition word_occurs (w s : string) : bool :=
  negb (no_match (pat_word w) None s).

(** The words and phrases steps 3 and 4 of the normaliser remove. *)
Definition removed_words : list string :=
  (map lower COMMON_REMOVE_WORDS ++ COMMON_SUFFIXES)%list.



(** ** The score the specification describes *)



(** ** The records of one prospect *)

(** The record [process_batch] builds for a prospect and a candidate. *)
Definition record_of (prospect : pyobj) (candidate : name_tuple)
    : MatchRecord :=
  {| Prospect := prospect;
     Matched_Salesforce_Entry := candidate.1;
     Similarity := ratio (normalize_name prospect) candidate.2;
     Normalized_Prospect := normalize_name prospect;
     Normalized_Salesforce := candidate.2 |}.

(** One round of the outer loop of [process_batch], started from no
    matches. *)
Definition prospect_matches (threshold : Q)
    (ngram_index : gmap string (list name_tuple)) (prospect : pyobj)
    : list MatchRecord :=
  let norm_prospect := normalize_name prospect in
  match norm_prospect with
  | EmptyString => []
  | _ =>
      fold_left (score_candidate threshold prospect norm_prospect)
        (elements (find_candidates norm_prospect ngram_index 2)) []
  end.

(** ** The scenarios of the specification *)

Definition scenario_registry : list pyobj :=
  [ PyStr "Amace Solutions Pvt. Ltd." ].

Definition scenario_prospects : list pyobj :=
  [ PyStr "Amace Solutions (India) Ltd"; PyStr "Totally Different Co" ].

Definition scenario_record : MatchRecord :=
  {| Prospect := PyStr "Amace Solutions (India) Ltd";
     Matched_Salesforce_Entry := PyStr "Amace Solutions Pvt. Ltd.";
     Similarity := 100;
     Normalized_Prospect := "amace";
     Normalized_Salesforce := "amace" |}.

(** A pair of names whose score is exactly 90. *)
Definition boundary_prospect : pyobj := PyStr "abcdefghij".

Definition boundary_entry : name_tuple := (PyStr "abcdefghix", "abcdefghix").

(** A registry that holds the same name twice. *)
Definition twice_registry : list pyobj :=
  [ PyStr "Acme Ltd"; PyStr "Acme Ltd" ].

Definition twice_entry : name_tuple := (PyStr "Acme Ltd", "acme").

(** The registry side of a record: the pair the candidate set holds. *)
Definition matched_pair (r : MatchRecord) : name_tuple :=
  (Matched_Salesforce_Entry r, Normalized_Salesforce r).


(** A registry with two names of the same normal form, and the two
    records the prospect "Acme" gets from it. *)
Definition tie_registry : list pyobj :=
  [ PyStr "Acme Ltd"; PyStr "Acme Inc" ].

Definition tie_matches : list MatchRecord :=
  [ record_of (PyStr "Acme") (PyStr "Acme Inc", "acme");
    record_of (PyStr "Acme") (PyStr "Acme Ltd", "acme") ].

(** ** Notions for the further properties *)

(** The entry [t] is filed under the n-gram [g]: its normal form is not
    empty and [g] is one of its n-grams. *)
Definition indexed_under (n : nat) (g : string) (t : name_tuple) : bool :=
  match t.2 with
  | EmptyString => false
  | _ => bool_decide (g ∈ get_ngrams t.2 n)
  end.

(** Two strings have an n-gram in common. *)
Definition share_ngram (n : nat) (a b : string) : Prop :=
  exists g : string, g ∈ get_ngrams a n /\ g ∈ get_ngrams b n.

(** The pairs of neighbouring characters of a string, from the left. *)
Fixpoint bigrams (s : string) : list (ascii * ascii) :=
  match s with
  | String x (String y _ as s') => (x, y) :: bigrams s'
  | _ => []
  end.

(** Two names the 2-gram filter keeps apart although their score is 80. *)
Definition apart_prospect : pyobj := PyStr "ab".

Definition apart_name : pyobj := PyStr "acb".

(** The elements of [l] put into a set. *)
Definition set_of_entries (l : list name_tuple) : gset name_tuple :=
  list_to_set l.

(** * Results *)

(** ** The end-to-end scenario *)

(** C1, as the specification states it, fails: the run emits one record,
    but its two names do not normalise to "amace solutions". *)
Lemma scenario_not_amace_solutions :
  ~ (exists r : MatchRecord,
       main_matches 90 BATCH_SIZE scenario_prospects scenario_registry
         = Some [r]
       /\ normalize_name (Prospect r) = "amace solutions"
       /\ normalize_name (Matched_Salesforce_Entry r) = "amace solutions"
       /\ Similarity r = 100%Q).
Proof.
  intros (r & Hrun & Hp & _).
  vm_compute in Hrun. injection Hrun as <-.
  vm_compute in Hp. discriminate Hp.
Qed.

(** C1 (amended): with registry ["Amace Solutions Pvt. Ltd."], prospects
    ["Amace Solutions (India) Ltd", "Totally Different Co"] and threshold
    90 the run emits exactly one record; its prospect and its matched name
    both normalise to "amace" ("solutions" is one of the suffixes that are
    removed), its score is 100, and no record is emitted for
    "Totally Different Co", whose normal form "totally different" has no
    candidate in the index. *)
Theorem scenario_amace :
  main_matches 90 BATCH_SIZE scenario_prospects scenario_registry
    = Some [scenario_record]
  /\ normalize_name (Prospect scenario_record) = "amace"
  /\ normalize_name (Matched_Salesforce_Entry scenario_record) = "amace"
  /\ Normalized_Prospect scenario_record = "amace"
  /\ Normalized_Salesforce scenario_record = "amace"
  /\ Similarity scenario_record = 100%Q
  /\ Prospect scenario_record <> PyStr "Totally Different Co"
  /\ normalize_name (PyStr "Totally Different Co") = "totally different"
  /\ elements
       (find_candidates "totally different"
          (create_ngram_index (sf_tuples_of scenario_registry) 2) 2)
     = [].
Proof.
  repeat split; try (vm_compute; reflexivity).
  discriminate.
Qed.

(** ** Loops that only append *)

Section Accumulate.
Context {A B : Type} (f : list B -> A -> list B).
Hypothesis f_app : forall acc x, f acc x = (acc ++ f [] x)%list.

Lemma fold_left_accumulate (l : list A) (acc : list B) :
  fold_left f l acc = (acc ++ concat (map (f []) l))%list.
Proof.
  revert acc. induction l as [|x l IH]; intros acc; simpl.
  - by rewrite app_nil_r.
  - rewrite IH, (f_app acc x). by rewrite <- app_assoc.
Qed.

End Accumulate.

Lemma score_candidate_app thr p np acc c :
  score_candidate thr p np acc c
  = (acc ++ score_candidate thr p np [] c)%list.
Proof.
  unfold score_candidate. destruct c as [existing norm].
  destruct (Qle_bool thr (ratio np norm)); simpl.
  - reflexivity.
  - by rewrite app_nil_r.
Qed.

Lemma score_candidates_app thr p np cs acc :
  fold_left (score_candidate thr p np) cs acc
  = (acc ++ fold_left (score_candidate thr p np) cs [])%list.
Proof.
  rewrite !(fold_left_accumulate _ (score_candidate_app thr p np)).
  reflexivity.
Qed.

(** [process_batch] is the concatenation of what each prospect
    contributes; its dictionary argument is not read. *)
Lemma process_batch_concat thr batch d idx :
  process_batch thr batch d idx
  = concat (map (prospect_matches thr idx) batch).
Proof.
  unfold process_batch.
  rewrite fold_left_accumulate.
  - reflexivity.
  - intros acc p. simpl.
    destruct (normalize_name p) as [|a np] eqn:E.
    + by rewrite app_nil_r.
    + apply score_candidates_app.
Qed.

Lemma process_batch_app thr l1 l2 d idx :
  process_batch thr (l1 ++ l2) d idx
  = (process_batch thr l1 d idx ++ process_batch thr l2 d idx)%list.
Proof. by rewrite !process_batch_concat, map_app, concat_app. Qed.

Lemma score_candidate_record thr p c :
  score_candidate thr p (normalize_name p) [] c
  = if Qle_bool thr (ratio (normalize_name p) c.2)
    then [record_of p c] else [].
Proof. destruct c as [e n]. reflexivity. Qed.

Lemma prospect_matches_filter thr idx p :
  normalize_name p <> "" ->
  prospect_matches thr idx p
  = map (record_of p)
      (List.filter
         (fun c : name_tuple => Qle_bool thr (ratio (normalize_name p) c.2))
         (elements (find_candidates (normalize_name p) idx 2))).
Proof.
  intros Hne. unfold prospect_matches. simpl.
  destruct (normalize_name p) as [|a np] eqn:E; [done|].
  rewrite <- E in *. clear E a np Hne.
  rewrite (fold_left_accumulate _ (score_candidate_app thr p _)).
  simpl.
  induction (elements (find_candidates (normalize_name p) idx 2))
    as [|c cs IH]; [done|].
  simpl. rewrite score_candidate_record, IH.
  by destruct (Qle_bool thr (ratio (normalize_name p) c.2)).
Qed.

Lemma prospect_matches_empty thr idx p :
  normalize_name p = "" -> prospect_matches thr idx p = [].
Proof. intros E. unfold prospect_matches. simpl. by rewrite E. Qed.

(** Who is in the output of [process_batch]. *)
Lemma elem_of_process_batch thr batch d idx r :
  r ∈ process_batch thr batch d idx <->
  exists (p : pyobj) (c : name_tuple),
    p ∈ batch /\ normalize_name p <> ""
    /\ c ∈ find_candidates (normalize_name p) idx 2
    /\ Qle_bool thr (ratio (normalize_name p) c.2) = true
    /\ r = record_of p c.
Proof.
  rewrite process_batch_concat, list_elem_of_In, in_concat.
  split.
  - intros (l & Hl & Hr). apply in_map_iff in Hl as (p & <- & Hp).
    destruct (decide (normalize_name p = "")) as [E|E].
    + rewrite (prospect_matches_empty _ _ _ E) in Hr. destruct Hr.
    + rewrite (prospect_matches_filter _ _ _ E) in Hr.
      apply in_map_iff in Hr as (c & <- & Hc).
      apply filter_In in Hc as [Hc Hs].
      exists p, c. repeat split; try done.
      * by apply list_elem_of_In.
      * by apply elem_of_elements, list_elem_of_In.
  - intros (p & c & Hp & E & Hc & Hs & ->).
    exists (prospect_matches thr idx p). split.
    + apply in_map. by apply list_elem_of_In.
    + rewrite (prospect_matches_filter _ _ _ E).
      apply in_map, filter_In. split; [|done].
      by apply list_elem_of_In, elem_of_elements.
Qed.

(** ** Batching *)

Lemma slice_take_drop {A : Type} (l : list A) (i k : nat) :
  slice l i (i + k) = take k (drop i l).
Proof. unfold slice. f_equal. lia. Qed.

(** The batches of any positive size, put end to end, are the prospects
    from the first start on. *)
Lemma batches_concat {A : Type} (l : list A) (n fuel start : nat) :
  length l - start <= fuel ->
  concat (map (fun i => slice l i (i + S n))
            (range_from fuel start (length l) (S n)))
  = drop start l.
Proof.
  revert start. induction fuel as [|fuel IH]; intros start Hfuel; simpl.
  - symmetry. apply drop_ge. lia.
  - destruct (Nat.ltb_spec start (length l)) as [Hlt|Hge]; simpl.
    + rewrite IH by lia. rewrite slice_take_drop.
      rewrite <- (take_drop (S n) (drop start l)) at 2.
      f_equal. rewrite drop_drop. f_equal.
    + symmetry. apply drop_ge. lia.
Qed.

Lemma make_batches_concat {A : Type} (l : list A) (n : nat) :
  exists batches : list (list A),
    make_batches (S n) l = Some batches /\ concat batches = l.
Proof.
  unfold make_batches, range. eexists. split; [reflexivity|].
  rewrite batches_concat by lia. reflexivity.
Qed.

Lemma singles_from {A : Type} (l : list A) (fuel start : nat) :
  length l - start <= fuel ->
  map (fun i => slice l i (i + 1)) (range_from fuel start (length l) 1)
  = map (fun x => [x]) (drop start l).
Proof.
  revert start. induction fuel as [|fuel IH]; intros start Hfuel; simpl.
  - rewrite drop_ge by lia. reflexivity.
  - destruct (Nat.ltb_spec start (length l)) as [Hlt|Hge]; simpl.
    + destruct (lookup_lt_is_Some_2 l start Hlt) as [x Hx].
      rewrite slice_take_drop, (drop_S l x start Hx). simpl.
      rewrite take_0. f_equal.
      rewrite IH by lia. by rewrite Nat.add_1_r.
    + rewrite drop_ge by lia. reflexivity.
Qed.

Lemma make_batches_singles {A : Type} (l : list A) :
  make_batches 1 l = Some (map (fun x => [x]) l).
Proof.
  unfold make_batches, range. f_equal. by rewrite singles_from by lia.
Qed.

Lemma make_batches_full {A : Type} (l : list A) :
  l <> [] -> make_batches (length l) l = Some [l].
Proof.
  intros Hne. destruct l as [|x l]; [done|].
  unfold make_batches, range. cbn [length range_from].
  rewrite (proj2 (Nat.ltb_lt 0 (S (length l)))) by lia.
  assert (range_from (length l) (0 + S (length l)) (S (length l))
            (S (length l)) = []) as ->.
  { destruct (length l); simpl; [done|].
    by rewrite (proj2 (Nat.ltb_ge _ _)) by lia. }
  cbn [map]. rewrite slice_take_drop. cbn [drop].
  by rewrite (take_ge (x :: l)) by (simpl; lia).
Qed.

Lemma collect_matches_concat thr d idx batches :
  collect_matches thr d idx batches
  = process_batch thr (concat batches) d idx.
Proof.
  unfold collect_matches.
  rewrite (fold_left_accumulate
             (fun matches batch =>
                (matches ++ process_batch thr batch d idx)%list))
    by reflexivity.
  simpl. induction batches as [|b bs IH]; simpl.
  - reflexivity.
  - by rewrite process_batch_app, IH.
Qed.

Lemma main_matches_whole thr n prospects sf :
  main_matches thr (S n) prospects sf
  = Some (process_batch thr prospects (dict (sf_tuples_of sf))
            (create_ngram_index (sf_tuples_of sf) 2)).
Proof.
  unfold main_matches.
  destruct (make_batches_concat prospects n) as (bs & -> & Hbs).
  by rewrite collect_matches_concat, Hbs.
Qed.

(** C5: cutting the prospects into batches does not change the result.
    For every threshold, prospects and index, the batches of size 1, run
    one after the other, give the records of the single batch that holds
    all prospects: the same records with the same scores, in the same
    order and so also as a set; the main block returns the same matches
    for every positive batch size. *)
Theorem batching_invariance (thr : Q) (prospects : list pyobj)
    (d : gmap pyobj string) (idx : gmap string (list name_tuple)) :
  make_batches 1 prospects = Some (map (fun p => [p]) prospects)
  /\ collect_matches thr d idx (map (fun p => [p]) prospects)
     = collect_matches thr d idx [prospects]
  /\ (forall r : MatchRecord,
        r ∈ collect_matches thr d idx (map (fun p => [p]) prospects)
        <-> r ∈ collect_matches thr d idx [prospects])
  /\ (forall (sf : list pyobj) (n : nat),
        main_matches thr 1 prospects sf
        = main_matches thr (S n) prospects sf)
  /\ (prospects <> [] ->
      make_batches (length prospects) prospects = Some [prospects]).
Proof.
  assert (collect_matches thr d idx (map (fun p => [p]) prospects)
          = collect_matches thr d idx [prospects]) as Heq.
  { rewrite !collect_matches_concat. f_equal. simpl.
    rewrite app_nil_r. induction prospects as [|p ps IH]; simpl; congruence. }
  split; [apply make_batches_singles|].
  split; [exact Heq|].
  split; [by rewrite Heq|].
  split; [intros sf n; by rewrite !main_matches_whole|].
  apply make_batches_full.
Qed.

Lemma batching_invariance_witness :
  make_batches (length scenario_prospects) scenario_prospects
  = Some [scenario_prospects].
Proof.
  apply (batching_invariance 90 scenario_prospects ∅ ∅).
  discriminate.
Defined.

(** ** The threshold *)

Lemma record_of_similarity p c :
  Similarity (record_of p c) = ratio (normalize_name p) c.2.
Proof. reflexivity. Qed.

(** C6: every record [process_batch] emits has a score of at least the
    threshold; a candidate whose score is exactly the threshold gets a
    record, one whose score is the threshold minus 1 gets none. *)
Theorem threshold_boundary (thr : Q) (batch : list pyobj)
    (d : gmap pyobj string) (idx : gmap string (list name_tuple)) :
  (forall r : MatchRecord,
     r ∈ process_batch thr batch d idx -> (thr <= Similarity r)%Q)
  /\ (forall (p : pyobj) (c : name_tuple),
        p ∈ batch ->
        normalize_name p <> "" ->
        c ∈ find_candidates (normalize_name p) idx 2 ->
        ((ratio (normalize_name p) c.2 == thr)%Q ->
         record_of p c ∈ process_batch thr batch d idx)
        /\ ((ratio (normalize_name p) c.2 == thr - 1)%Q ->
            record_of p c ∉ process_batch thr batch d idx)).
Proof.
  assert (forall r : MatchRecord,
            r ∈ process_batch thr batch d idx -> (thr <= Similarity r)%Q)
    as Hall.
  { intros r Hr.
    apply elem_of_process_batch in Hr as (p' & c' & _ & _ & _ & Hs & ->).
    rewrite record_of_similarity. by apply Qle_bool_iff. }
  split; [exact Hall|]. intros p c Hp Hne Hc. split.
  - intros Hs. apply elem_of_process_batch.
    exists p, c. repeat split; try done.
    apply Qle_bool_iff. rewrite Hs. apply Qle_refl.
  - intros Hs Hr. apply Hall in Hr.
    rewrite record_of_similarity, Hs in Hr. lra.
Qed.

Lemma threshold_boundary_witness :
  record_of boundary_prospect boundary_entry
    ∈ process_batch 90 [boundary_prospect] ∅
        (create_ngram_index [boundary_entry] 2)
  /\ record_of boundary_prospect boundary_entry
    ∉ process_batch 91 [boundary_prospect] ∅
        (create_ngram_index [boundary_entry] 2).
Proof.
  assert (boundary_prospect ∈ [boundary_prospect]) as Hp.
  { apply list_elem_of_In. simpl. left. reflexivity. }
  assert (normalize_name boundary_prospect <> "") as Hne.
  { vm_compute. discriminate. }
  assert (boundary_entry
            ∈ find_candidates (normalize_name boundary_prospect)
                (create_ngram_index [boundary_entry] 2) 2) as Hc.
  { apply elem_of_elements. apply list_elem_of_In.
    vm_compute. left. reflexivity. }
  split.
  - destruct (threshold_boundary 90 [boundary_prospect] ∅
                (create_ngram_index [boundary_entry] 2)) as [_ H].
    destruct (H boundary_prospect boundary_entry Hp Hne Hc) as [Hin _].
    apply Hin. vm_compute. reflexivity.
  - destruct (threshold_boundary 91 [boundary_prospect] ∅
                (create_ngram_index [boundary_entry] 2)) as [_ H].
    destruct (H boundary_prospect boundary_entry Hp Hne Hc) as [_ Hout].
    apply Hout. vm_compute. reflexivity.
Defined.

(** ** What the index holds and what a lookup returns *)

Lemma index_append_lookup_eq e (idx : gmap string (list name_tuple)) g :
  index_append e idx g !! g = Some (default [] (idx !! g) ++ [e])%list.
Proof.
  unfold index_append. rewrite lookup_alter_eq.
  destruct (idx !! g) as [b|] eqn:E; simpl.
  - by rewrite E.
  - by rewrite lookup_insert_eq.
Qed.

Lemma index_append_lookup_ne e (idx : gmap string (list name_tuple)) g g' :
  g <> g' -> index_append e idx g !! g' = idx !! g'.
Proof.
  intros Hne. unfold index_append. rewrite lookup_alter_ne by done.
  destruct (idx !! g); [done|]. by rewrite lookup_insert_ne.
Qed.

(** A property of the entry and of all entries already in the index is a
    property of all entries after the append. *)
Lemma index_append_all (P : name_tuple -> Prop) e idx g :
  P e ->
  (forall g' b t, idx !! g' = Some b -> t ∈ b -> P t) ->
  forall g' b t, index_append e idx g !! g' = Some b -> t ∈ b -> P t.
Proof.
  intros He Hidx g' b t Hb Ht.
  destruct (decide (g = g')) as [<-|Hne].
  - rewrite index_append_lookup_eq in Hb. injection Hb as <-.
    apply elem_of_app in Ht as [Ht|Ht].
    + destruct (idx !! g) as [b0|] eqn:E; simpl in Ht.
      * by eapply Hidx.
      * by apply elem_of_nil in Ht.
    + apply list_elem_of_singleton in Ht as ->. exact He.
  - rewrite index_append_lookup_ne in Hb by done. by eapply Hidx.
Qed.

Lemma index_appends_all (P : name_tuple -> Prop) e gs idx :
  P e ->
  (forall g' b t, idx !! g' = Some b -> t ∈ b -> P t) ->
  forall g' b t,
    fold_left (index_append e) gs idx !! g' = Some b -> t ∈ b -> P t.
Proof.
  intros He. revert idx. induction gs as [|g gs IH]; intros idx Hidx; simpl.
  - exact Hidx.
  - apply IH. by apply index_append_all.
Qed.

(** Every entry of every bucket is one of the indexed names, and its
    normal form is not empty. *)
Lemma create_ngram_index_entries names n g b t :
  create_ngram_index names n !! g = Some b -> t ∈ b ->
  t ∈ names /\ t.2 <> "".
Proof.
  unfold create_ngram_index.
  assert (forall (l : list name_tuple) idx,
            (forall t, t ∈ l -> t ∈ names) ->
            (forall g' b t, idx !! g' = Some b -> t ∈ b ->
                            t ∈ names /\ t.2 <> "") ->
            forall g' b t,
              fold_left (index_entry n) l idx !! g' = Some b ->
              t ∈ b -> t ∈ names /\ t.2 <> "") as H.
  { induction l as [|e l IH]; intros idx Hl Hidx; simpl.
    - exact Hidx.
    - apply IH.
      + intros t' Ht'. apply Hl. by right.
      + unfold index_entry. destruct e as [name [|a norm]]; [exact Hidx|].
        apply (index_appends_all (fun t => t ∈ names /\ t.2 <> "")).
        * split; [apply Hl; by left|]. done.
        * exact Hidx. }
  intros Hb Ht. by apply (H names ∅) with g b.
Qed.

Lemma add_bucket_all (P : name_tuple -> Prop) (b : list name_tuple)
    (cs : gset name_tuple) :
  (forall c, c ∈ cs -> P c) -> (forall c, c ∈ b -> P c) ->
  forall c,
    c ∈ fold_left (fun candidates candidate => candidates ∪ {[ candidate ]})
          b cs -> P c.
Proof.
  revert cs. induction b as [|x b IH]; intros cs Hcs Hb; simpl.
  - exact Hcs.
  - apply IH.
    + intros c Hc. apply elem_of_union in Hc as [Hc|Hc].
      * by apply Hcs.
      * apply elem_of_singleton in Hc as ->. apply Hb. by left.
    + intros c Hc. apply Hb. by right.
Qed.

(** Every candidate comes out of a bucket of the index. *)
Lemma find_candidates_from_bucket q idx n c :
  c ∈ find_candidates q idx n ->
  exists g b, idx !! g = Some b /\ c ∈ b.
Proof.
  unfold find_candidates. destruct q as [|a q]; [by intros ?%elem_of_empty|].
  generalize (elements (get_ngrams (String a q) n)). intros gs.
  assert (forall cs : gset name_tuple,
            (forall c, c ∈ cs -> exists g b, idx !! g = Some b /\ c ∈ b) ->
            forall c,
              c ∈ fold_left
                    (fun candidates ngram =>
                       match idx !! ngram with
                       | Some bucket =>
                           fold_left (fun candidates candidate =>
                                        candidates ∪ {[ candidate ]})
                             bucket candidates
                       | None => candidates
                       end) gs cs ->
              exists g b, idx !! g = Some b /\ c ∈ b) as H.
  { induction gs as [|g gs IH]; intros cs Hcs; simpl.
    - exact Hcs.
    - apply IH. destruct (idx !! g) as [b|] eqn:E; [|exact Hcs].
      apply add_bucket_all; [exact Hcs|]. intros c' Hc'. by exists g, b. }
  apply H. by intros c' ?%elem_of_empty.
Qed.

Lemma elem_of_sf_tuples_of sf t :
  t ∈ sf_tuples_of sf -> t.2 = normalize_name t.1 /\ t.2 <> "".
Proof.
  unfold sf_tuples_of. intros Ht.
  apply list_elem_of_filter in Ht as [Hne Ht].
  apply list_elem_of_fmap in Ht as (name & -> & _). by split.
Qed.

(** ** Names that are skipped *)

Lemma process_batch_skip thr d idx p l1 l2 :
  normalize_name p = "" ->
  process_batch thr (l1 ++ p :: l2) d idx
  = process_batch thr (l1 ++ l2) d idx.
Proof.
  intros E. rewrite !process_batch_app.
  change (p :: l2) with ([p] ++ l2)%list. rewrite process_batch_app.
  rewrite (process_batch_concat thr [p]). simpl.
  by rewrite (prospect_matches_empty _ _ _ E).
Qed.

(** C7: names that carry no usable text are passed over and nothing
    fails.  [normalize_name] gives the empty string for whatever is not a
    string; no bucket of the index holds an entry whose normal form is
    empty; a prospect whose normal form is empty adds no record to its
    batch; and the main block, for any positive batch size, returns its
    matches, none of which has a prospect or a registry name with an empty
    normal form. *)
Theorem fail_soft (thr : Q) (n : nat) (prospects sf_list : list pyobj) :
  (forall v : pyobj, (forall s : string, v <> PyStr s) ->
     normalize_name v = "")
  /\ (forall (names : list name_tuple) (k : nat) (g : string)
        (bucket : list name_tuple) (t : name_tuple),
        create_ngram_index names k !! g = Some bucket -> t ∈ bucket ->
        t.2 <> "")
  /\ (forall (d : gmap pyobj string) (idx : gmap string (list name_tuple))
        (p : pyobj) (l1 l2 : list pyobj),
        normalize_name p = "" ->
        process_batch thr (l1 ++ p :: l2) d idx
        = process_batch thr (l1 ++ l2) d idx)
  /\ exists matches : list MatchRecord,
       main_matches thr (S n) prospects sf_list = Some matches
       /\ forall r : MatchRecord,
            r ∈ matches ->
            normalize_name (Prospect r) <> ""
            /\ normalize_name (Matched_Salesforce_Entry r) <> "".
Proof.
  split; [|split; [|split]].
  - intros [s| |z] Hv; [by destruct (Hv s)|done|done].
  - intros names k g bucket t Hb Ht.
    by destruct (create_ngram_index_entries _ _ _ _ _ Hb Ht).
  - intros d idx p l1 l2 E. by apply process_batch_skip.
  - eexists. split; [apply main_matches_whole|].
    intros r Hr.
    apply elem_of_process_batch in Hr as (p & c & _ & Hp & Hc & _ & ->).
    split; [exact Hp|]. simpl.
    apply find_candidates_from_bucket in Hc as (g & b & Hb & Hc).
    apply (create_ngram_index_entries _ _ _ _ _ Hb) in Hc as [Hc _].
    apply elem_of_sf_tuples_of in Hc as [E Hne]. by rewrite <- E.
Qed.

Lemma fail_soft_witness :
  normalize_name (PyNum 7) = ""
  /\ process_batch 90 ([PyStr "Acme"] ++ PyNone :: [PyStr "(India)"]) ∅
       (create_ngram_index [twice_entry] 2)
     = process_batch 90 ([PyStr "Acme"] ++ [PyStr "(India)"]) ∅
         (create_ngram_index [twice_entry] 2).
Proof.
  split.
  - apply (fail_soft 90 0 [] []). intros s. discriminate.
  - apply (fail_soft 90 0 [] []). reflexivity.
Defined.

(** ** Candidates are a set *)

Lemma matched_pair_record_of p c : matched_pair (record_of p c) = c.
Proof. by destruct c. Qed.

Lemma process_batch_single thr p d idx :
  process_batch thr [p] d idx = prospect_matches thr idx p.
Proof. rewrite process_batch_concat. simpl. apply app_nil_r. Qed.

Lemma prospect_matches_pairs_NoDup thr idx p :
  NoDup (map matched_pair (prospect_matches thr idx p)).
Proof.
  destruct (decide (normalize_name p = "")) as [E|E].
  - rewrite (prospect_matches_empty _ _ _ E). constructor.
  - rewrite (prospect_matches_filter _ _ _ E), map_map.
    rewrite (map_ext _ id) by (intros c; apply matched_pair_record_of).
    rewrite map_id.
    apply NoDup_ListNoDup, List.NoDup_filter, NoDup_ListNoDup, NoDup_elements.
Qed.

(** C10: the candidates of a query are a set of (raw name, normal form)
    pairs, so a pair is iterated, scored and reported at most once for a
    prospect however often the registry repeats the name: the index does
    hold a repeated entry more than once, the candidate set does not. *)
Theorem candidates_deduplicated (thr : Q) (p : pyobj)
    (d : gmap pyobj string) (idx : gmap string (list name_tuple))
    (q : string) (n : nat) :
  NoDup (elements (find_candidates q idx n))
  /\ NoDup (map matched_pair (process_batch thr [p] d idx))
  /\ NoDup (process_batch thr [p] d idx)
  /\ sf_tuples_of twice_registry = [twice_entry; twice_entry]
  /\ create_ngram_index (sf_tuples_of twice_registry) 2 !! "ac"
     = Some [twice_entry; twice_entry]
  /\ elements
       (find_candidates "acme"
          (create_ngram_index (sf_tuples_of twice_registry) 2) 2)
     = [twice_entry]
  /\ main_matches 90 BATCH_SIZE [PyStr "Acme"] twice_registry
     = Some [record_of (PyStr "Acme") twice_entry].
Proof.
  split; [apply NoDup_elements|].
  rewrite process_batch_single.
  split; [apply prospect_matches_pairs_NoDup|].
  split.
  { eapply NoDup_fmap_1. apply prospect_matches_pairs_NoDup. }
  repeat split; vm_compute; reflexivity.
Qed.

(** ** The score *)

Lemma lcs_len_nil_r a : lcs_len a "" = 0%nat.
Proof. by destruct a. Qed.

Lemma lcs_len_cons x a y b :
  lcs_len (String x a) (String y b)
  = if Ascii.eqb x y then S (lcs_len a b)
    else Nat.max (lcs_len a (String y b)) (lcs_len (String x a) b).
Proof. reflexivity. Qed.

Lemma lcs_len_sym a b : lcs_len a b = lcs_len b a.
Proof.
  revert b. induction a as [|x a IHa]; intros b.
  - by rewrite lcs_len_nil_r.
  - induction b as [|y b IHb].
    + reflexivity.
    + rewrite !lcs_len_cons, Ascii.eqb_sym.
      rewrite IHa, (IHa (String y b)), IHb. by rewrite Nat.max_comm.
Qed.

Lemma lcs_len_le_l a b : (lcs_len a b <= String.length a)%nat.
Proof.
  revert b. induction a as [|x a IHa]; intros b.
  - simpl. lia.
  - induction b as [|y b IHb].
    + simpl. lia.
    + rewrite lcs_len_cons. destruct (Ascii.eqb x y).
      * simpl. specialize (IHa b). lia.
      * specialize (IHa (String y b)). simpl in *. lia.
Qed.

Lemma lcs_len_le_r a b : (lcs_len a b <= String.length b)%nat.
Proof. rewrite lcs_len_sym. apply lcs_len_le_l. Qed.

Lemma indel_distance_sym a b : indel_distance a b = indel_distance b a.
Proof. unfold indel_distance. rewrite (lcs_len_sym a b). lia. Qed.

Lemma normalized_distance_sym a b :
  normalized_distance a b = normalized_distance b a.
Proof.
  unfold normalized_distance.
  by rewrite (indel_distance_sym a b), (Nat.add_comm (String.length a)).
Qed.

(** C8: the score does not depend on the order of its arguments. *)
Theorem ratio_sym (a b : string) : ratio a b = ratio b a.
Proof.
  unfold ratio, normalized_similarity.
  by rewrite (normalized_distance_sym a b).
Qed.


Lemma indel_distance_le a b :
  (indel_distance a b <= String.length a + String.length b)%nat.
Proof. unfold indel_distance. lia. Qed.

Lemma indel_distance_lcs a b :
  (indel_distance a b + 2 * lcs_len a b
   = String.length a + String.length b)%nat.
Proof.
  unfold indel_distance.
  pose proof (lcs_len_le_l a b). pose proof (lcs_len_le_r a b). lia.
Qed.

Lemma inject_nat_pos (m : nat) :
  m <> 0%nat -> (0 < inject_Z (Z.of_nat m))%Q.
Proof.
  intros Hm. change 0%Q with (inject_Z 0). rewrite <- Zlt_Qlt. lia.
Qed.

(** The score as a fraction of the longest common subsequence. *)
Lemma ratio_lcs a b :
  (String.length a + String.length b)%nat <> 0%nat ->
  (ratio a b
   == 200 * inject_Z (Z.of_nat (lcs_len a b))
      / inject_Z (Z.of_nat (String.length a + String.length b)))%Q.
Proof.
  intros Hm. unfold ratio, normalized_similarity, normalized_distance.
  rewrite Qred_correct.
  destruct (Nat.eqb_spec (String.length a + String.length b) 0) as [E|_];
    [done|].
  pose proof (inject_nat_pos _ Hm) as Hpos.
  rewrite <- (indel_distance_lcs a b).
  rewrite !Nat2Z.inj_add, Nat2Z.inj_mul, !inject_Z_plus, inject_Z_mult.
  rewrite <- (indel_distance_lcs a b) in Hpos.
  rewrite !Nat2Z.inj_add, Nat2Z.inj_mul, !inject_Z_plus, inject_Z_mult
    in Hpos.
  change (inject_Z (Z.of_nat 2)) with 2%Q in *.
  field. lra.
Qed.

Lemma normalized_distance_bounds a b :
  (0 <= normalized_distance a b <= 1)%Q.
Proof.
  unfold normalized_distance.
  destruct (Nat.eqb_spec (String.length a + String.length b) 0) as [E|Hm].
  - lra.
  - pose proof (inject_nat_pos _ Hm) as Hpos. split.
    + apply Qle_shift_div_l; [exact Hpos|].
      rewrite Qmult_0_l. change 0%Q with (inject_Z 0).
      rewrite <- Zle_Qle. lia.
    + apply Qle_shift_div_r; [exact Hpos|].
      rewrite Qmult_1_l, <- Zle_Qle.
      pose proof (indel_distance_le a b). lia.
Qed.



(** ** Characters of a normal form *)

Ltac ascii_cases c :=
  destruct c as [[] [] [] [] [] [] [] []]; vm_compute;
  try reflexivity; try discriminate; auto.

Lemma kept_lower c : is_kept c = true -> lower_char c = c.
Proof. ascii_cases c. Qed.

Lemma kept_space c : is_kept c = true -> is_space c = true -> c = " "%char.
Proof. ascii_cases c. Qed.

Lemma kept_not_bracket c :
  is_kept c = true ->
  Ascii.eqb c "(" = false /\ Ascii.eqb c "[" = false
  /\ Ascii.eqb c "{" = false.
Proof. ascii_cases c. Qed.




Lemma string_forall_impl (P Q : ascii -> bool) s :
  (forall c, P c = true -> Q c = true) ->
  string_forall P s = true -> string_forall Q s = true.
Proof.
  intros HPQ. induction s as [|c s IH]; simpl; [done|].
  intros [Hc Hs]%andb_true_iff. by rewrite (HPQ c Hc), IH.
Qed.


(** ** Substitutions that change nothing *)

Lemma sub_scan_no_match m repl prev s :
  no_match m prev s = true -> sub_scan m repl 0 prev s = s.
Proof.
  revert prev. induction s as [|c s IH]; intros prev; simpl; [done|].
  destruct (m prev (String c s)); [done|].
  intros H. by rewrite IH.
Qed.

Lemma re_sub_no_match m repl s :
  no_match m None s = true -> re_sub m repl s = s.
Proof. apply sub_scan_no_match. Qed.

Lemma lower_kept s : string_forall is_kept s = true -> lower s = s.
Proof.
  induction s as [|c s IH]; simpl; [done|].
  intros [Hc Hs]%andb_true_iff. by rewrite (kept_lower c Hc), IH.
Qed.

Lemma no_bracket_match (o c : ascii) prev s :
  string_forall (fun x => negb (Ascii.eqb x o)) s = true ->
  no_match (pat_bracket o c) prev s = true.
Proof.
  revert prev. induction s as [|x s IH]; intros prev; simpl; [done|].
  intros [Hx Hs]%andb_true_iff.
  apply negb_true_iff in Hx. rewrite Hx. by apply IH.
Qed.

Lemma no_not_kept_match prev s :
  string_forall is_kept s = true -> no_match pat_not_kept prev s = true.
Proof.
  revert prev. induction s as [|x s IH]; intros prev; simpl; [done|].
  intros [Hx Hs]%andb_true_iff. rewrite Hx. by apply IH.
Qed.

Lemma count_spaces_head s :
  space_opt (head s) = false -> count_spaces s = 0%nat.
Proof. destruct s as [|c s]; simpl; [done|]. by intros ->. Qed.

(** A run of whitespace that is one space is replaced by itself. *)
Lemma spaces_single prev s :
  string_forall is_kept s = true -> single_spaced s = true ->
  sub_scan pat_spaces " " 0 prev s = s.
Proof.
  revert prev. induction s as [|c s IH]; intros prev; simpl; [done|].
  intros [Hc Hs]%andb_true_iff [Hcs Hss]%andb_true_iff.
  unfold pat_spaces. simpl.
  destruct (is_space c) eqn:Ec.
  - simpl in Hcs. apply negb_true_iff in Hcs.
    rewrite (count_spaces_head s Hcs). simpl.
    rewrite (kept_space c Hc Ec). by rewrite IH.
  - by rewrite IH.
Qed.

Lemma lstrip_id s : space_opt (head s) = false -> lstrip s = s.
Proof. destruct s as [|c s]; simpl; [done|]. by intros ->. Qed.

Lemma rstrip_id s : space_opt (last_char None s) = false -> rstrip s = s.
Proof.
  induction s as [|c s IH]; [done|].
  destruct s as [|c' s].
  - simpl. by intros ->.
  - intros H.
    change (rstrip (String c (String c' s)))
      with (match rstrip (String c' s) with
            | EmptyString =>
                if is_space c then EmptyString else String c EmptyString
            | r => String c r
            end).
    by rewrite (IH H).
Qed.

Lemma strip_id s :
  space_opt (head s) = false -> space_opt (last_char None s) = false ->
  strip s = s.
Proof.
  intros Hh Hl. unfold strip. rewrite (lstrip_id s Hh). by apply rstrip_id.
Qed.

Lemma fold_left_fixed {A B : Type} (f : A -> B -> A) (l : list B) (a : A) :
  (forall x, In x l -> f a x = a) -> fold_left f l a = a.
Proof.
  induction l as [|x l IH]; simpl; [done|].
  intros H. rewrite (H x) by (by left). apply IH. intros y Hy. apply H.
  by right.
Qed.

Lemma kept_no_bracket (o : ascii) s :
  (forall c, is_kept c = true -> Ascii.eqb c o = false) ->
  string_forall is_kept s = true ->
  string_forall (fun x => negb (Ascii.eqb x o)) s = true.
Proof.
  intros Ho. apply string_forall_impl. intros c Hc. by rewrite (Ho c Hc).
Qed.

(** A string that has the shape of a normal form and holds none of the
    removed words between word boundaries is left as it is. *)
Lemma normalize_fixpoint s :
  normal_form s = true ->
  (forall w, In w removed_words -> word_occurs w s = false) ->
  normalize_name (PyStr s) = s.
Proof.
  unfold normal_form.
  intros [[[Hk Hs]%andb_true_iff Hh%negb_true_iff]%andb_true_iff
            Hl%negb_true_iff]%andb_true_iff Hw.
  unfold normalize_name.
  rewrite (lower_kept s Hk).
  rewrite (re_sub_no_match (pat_bracket "(" ")")).
  2:{ apply no_bracket_match, kept_no_bracket; [|done].
      intros c Hc. by destruct (kept_not_bracket c Hc) as (? & ? & ?). }
  rewrite (re_sub_no_match (pat_bracket "[" "]")).
  2:{ apply no_bracket_match, kept_no_bracket; [|done].
      intros c Hc. by destruct (kept_not_bracket c Hc) as (? & ? & ?). }
  rewrite (re_sub_no_match (pat_bracket "{" "}")).
  2:{ apply no_bracket_match, kept_no_bracket; [|done].
      intros c Hc. by destruct (kept_not_bracket c Hc) as (? & ? & ?). }
  rewrite (fold_left_fixed _ COMMON_REMOVE_WORDS).
  2:{ intros w Hin. apply re_sub_no_match.
      apply negb_false_iff, Hw. unfold removed_words.
      apply in_or_app. left. by apply in_map. }
  rewrite (fold_left_fixed _ COMMON_SUFFIXES).
  2:{ intros w Hin. apply re_sub_no_match.
      apply negb_false_iff, Hw. unfold removed_words.
      apply in_or_app. by right. }
  rewrite (re_sub_no_match pat_not_kept) by by apply no_not_kept_match.
  unfold re_sub. rewrite (spaces_single None s Hk Hs).
  by apply strip_id.
Qed.

(** ** Word boundaries *)

Lemma append_empty_r s : s ++ "" = s.
Proof.
  induction s as [|c s IH]; [done|].
  change (String c (s ++ "") = String c s). by f_equal.
Qed.












(** ** The shape of what the normaliser returns *)

Lemma not_kept_sub_kept prev s :
  string_forall is_kept (sub_scan pat_not_kept "" 0 prev s) = true.
Proof.
  revert prev. induction s as [|c s IH]; intros prev; simpl; [done|].
  destruct (is_kept c) eqn:E; simpl.
  - by rewrite E, IH.
  - apply IH.
Qed.

Lemma spaces_copy prev c s :
  is_space c = false ->
  sub_scan pat_spaces " " 0 prev (String c s)
  = String c (sub_scan pat_spaces " " 0 (Some c) s).
Proof.
  intros Ec. cbn [sub_scan].
  assert (pat_spaces prev (String c s) = None) as ->; [|done].
  unfold pat_spaces. simpl. by rewrite Ec.
Qed.

Lemma spaces_run prev c s :
  is_space c = true ->
  sub_scan pat_spaces " " 0 prev (String c s)
  = String " " (sub_scan pat_spaces " " (count_spaces s) (Some c) s).
Proof.
  intros Ec. cbn [sub_scan].
  assert (pat_spaces prev (String c s) = Some (S (count_spaces s))) as ->;
    [|done].
  unfold pat_spaces. simpl. by rewrite Ec.
Qed.

(** Collapsing whitespace.  In the middle of a run ([skip] is what is
    left of it) the scan resumes at a character that is not whitespace;
    from a fresh position it emits at most one space before such a
    character. *)
Lemma spaces_collapse s :
  string_forall is_kept s = true ->
  forall skip prev,
    (skip = count_spaces s ->
     string_forall is_kept (sub_scan pat_spaces " " skip prev s) = true
     /\ single_spaced (sub_scan pat_spaces " " skip prev s) = true
     /\ space_opt (head (sub_scan pat_spaces " " skip prev s)) = false)
    /\ (skip = 0%nat ->
        string_forall is_kept (sub_scan pat_spaces " " skip prev s) = true
        /\ single_spaced (sub_scan pat_spaces " " skip prev s) = true).
Proof.
  induction s as [|c s IH]; [by intros _ skip prev|].
  intros [Hc Hs]%andb_true_iff skip prev.
  specialize (IH Hs).
  assert (is_space c = false ->
          string_forall is_kept (sub_scan pat_spaces " " 0 prev (String c s))
          = true
          /\ single_spaced (sub_scan pat_spaces " " 0 prev (String c s))
             = true
          /\ space_opt (head (sub_scan pat_spaces " " 0 prev (String c s)))
             = false) as Hcopy.
  { intros Ec. rewrite (spaces_copy prev c s Ec).
    destruct (IH 0%nat (Some c)) as [_ IH0].
    destruct (IH0 eq_refl) as [Hk Hss]. simpl.
    by rewrite Hc, Hk, Ec, Hss. }
  split.
  - intros ->. simpl count_spaces. destruct (is_space c) eqn:Ec.
    + cbn [sub_scan]. by apply (IH (count_spaces s) (Some c)).
    + by apply Hcopy.
  - intros ->. destruct (is_space c) eqn:Ec.
    + rewrite (spaces_run prev c s Ec).
      destruct (IH (count_spaces s) (Some c)) as [IH1 _].
      destruct (IH1 eq_refl) as (Hk & Hss & Hh).
      simpl. by rewrite Hk, Hss, Hh.
    + destruct (Hcopy eq_refl) as (? & ? & ?). by split.
Qed.

Lemma lstrip_forall (P : ascii -> bool) s :
  string_forall P s = true -> string_forall P (lstrip s) = true.
Proof.
  induction s as [|c s IH]; simpl; [done|].
  intros [Hc Hs]%andb_true_iff. destruct (is_space c); [by apply IH|].
  simpl. by rewrite Hc, Hs.
Qed.

Lemma lstrip_single s :
  single_spaced s = true -> single_spaced (lstrip s) = true.
Proof.
  induction s as [|c s IH]; simpl; [done|].
  intros [Hc Hs]%andb_true_iff. destruct (is_space c) eqn:Ec; [by apply IH|].
  simpl. by rewrite Ec, Hs.
Qed.

Lemma lstrip_head s : space_opt (head (lstrip s)) = false.
Proof.
  induction s as [|c s IH]; simpl; [done|].
  by destruct (is_space c) eqn:Ec.
Qed.

Lemma rstrip_cons c s :
  rstrip (String c s)
  = match rstrip s with
    | EmptyString => if is_space c then EmptyString else String c EmptyString
    | r => String c r
    end.
Proof. reflexivity. Qed.

Lemma rstrip_head s : rstrip s <> "" -> head (rstrip s) = head s.
Proof.
  destruct s as [|c s]; [done|]. rewrite rstrip_cons.
  destruct (rstrip s); [|done]. by destruct (is_space c).
Qed.

Lemma rstrip_forall (P : ascii -> bool) s :
  string_forall P s = true -> string_forall P (rstrip s) = true.
Proof.
  induction s as [|c s IH]; [done|]. rewrite rstrip_cons.
  simpl. intros [Hc Hs]%andb_true_iff. specialize (IH Hs).
  destruct (rstrip s) as [|a r].
  - destruct (is_space c); [done|]. simpl. by rewrite Hc.
  - change (string_forall P (String c (String a r)))
      with (P c && string_forall P (String a r)). by rewrite Hc, IH.
Qed.

Lemma rstrip_single s :
  single_spaced s = true -> single_spaced (rstrip s) = true.
Proof.
  induction s as [|c s IH]; [done|]. rewrite rstrip_cons.
  simpl. intros [Hc Hs]%andb_true_iff. specialize (IH Hs).
  pose proof (rstrip_head s) as Hh.
  destruct (rstrip s) as [|a r].
  - destruct (is_space c) eqn:Ec; [done|]. simpl. by rewrite Ec.
  - change (single_spaced (String c (String a r)))
      with (negb (is_space c && space_opt (head (String a r)))
            && single_spaced (String a r)).
    rewrite Hh by done. by rewrite Hc, IH.
Qed.

Lemma rstrip_keeps_head s :
  space_opt (head s) = false -> space_opt (head (rstrip s)) = false.
Proof.
  intros H. destruct (rstrip s) as [|a r] eqn:E; [done|].
  rewrite <- E, rstrip_head; [done|]. by rewrite E.
Qed.

Lemma rstrip_last s : space_opt (last_char None (rstrip s)) = false.
Proof.
  induction s as [|c s IH]; [done|]. rewrite rstrip_cons.
  destruct (rstrip s) as [|a r].
  - by destruct (is_space c) eqn:Ec.
  - exact IH.
Qed.

Lemma strip_normal_form s :
  string_forall is_kept s = true -> single_spaced s = true ->
  normal_form (strip s) = true.
Proof.
  intros Hk Hs. unfold normal_form, strip.
  rewrite (rstrip_forall _ _ (lstrip_forall _ _ Hk)).
  rewrite (rstrip_single _ (lstrip_single _ Hs)).
  rewrite (rstrip_keeps_head _ (lstrip_head s)).
  by rewrite rstrip_last.
Qed.

(** Whatever the input, the result has the shape of a normal form. *)
Lemma normalize_normal_form (x : pyobj) :
  normal_form (normalize_name x) = true.
Proof.
  destruct x as [s| |z]; [|done|done].
  unfold normalize_name.
  set (s5 := re_sub pat_not_kept "" _).
  assert (string_forall is_kept s5 = true) as Hk
      by apply not_kept_sub_kept.
  destruct (spaces_collapse s5 Hk 0%nat None) as [_ H].
  destruct (H eq_refl) as [Hk' Hs'].
  by apply strip_normal_form.
Qed.

(** ** Normalising twice *)

Lemma length_append s1 s2 :
  String.length (s1 ++ s2) = (String.length s1 + String.length s2)%nat.
Proof.
  induction s1 as [|c s1 IH]; [done|].
  change (S (String.length (s1 ++ s2))
          = S (String.length s1 + String.length s2)). by rewrite IH.
Qed.

(** A substitution whose replacement is at most one character long does
    not make the subject longer. *)
Lemma length_sub_scan m repl skip prev s :
  (String.length repl <= 1)%nat ->
  (String.length (sub_scan m repl skip prev s) <= String.length s)%nat.
Proof.
  intros Hrepl. revert skip prev.
  induction s as [|c s IH]; intros skip prev; [done|].
  cbn [sub_scan]. destruct skip as [|k].
  - destruct (m prev (String c s)) as [len|].
    + rewrite length_append. specialize (IH (Nat.pred len) (Some c)).
      simpl. lia.
    + specialize (IH 0%nat (Some c)). simpl. lia.
  - specialize (IH k (Some c)). simpl. lia.
Qed.

Lemma length_delete m skip prev s :
  (String.length (sub_scan m "" skip prev s) <= String.length s)%nat.
Proof. apply length_sub_scan. simpl. lia. Qed.

(** Deleting the matches of a pattern that does match makes the subject
    shorter. *)
Lemma length_sub_scan_match m prev s :
  no_match m prev s = false ->
  (String.length (sub_scan m "" 0 prev s) < String.length s)%nat.
Proof.
  revert prev. induction s as [|c s IH]; intros prev; [done|].
  cbn [sub_scan no_match]. destruct (m prev (String c s)) as [len|].
  - intros _.
    pose proof (length_delete m (Nat.pred len) (Some c) s) as H.
    rewrite length_append. simpl. lia.
  - intros H. specialize (IH (Some c) H). simpl. lia.
Qed.

Lemma length_lstrip s : (String.length (lstrip s) <= String.length s)%nat.
Proof.
  induction s as [|c s IH]; simpl; [done|]. destruct (is_space c); simpl; lia.
Qed.

Lemma length_rstrip s : (String.length (rstrip s) <= String.length s)%nat.
Proof.
  induction s as [|c s IH]; [done|]. rewrite rstrip_cons.
  destruct (rstrip s) as [|a r].
  - destruct (is_space c); simpl; lia.
  - simpl in *. lia.
Qed.

Lemma length_strip s : (String.length (strip s) <= String.length s)%nat.
Proof.
  unfold strip. pose proof (length_rstrip (lstrip s)).
  pose proof (length_lstrip s). lia.
Qed.

Lemma length_remove_words (l : list string) (s : string) :
  (String.length
     (fold_left (fun name w => re_sub (pat_word w) "" name) l s)
   <= String.length s)%nat.
Proof.
  revert s. induction l as [|w l IH]; intros s; simpl; [done|].
  specialize (IH (re_sub (pat_word w) "" s)).
  pose proof (length_delete (pat_word w) 0 None s). unfold re_sub in *.
  lia.
Qed.

Lemma length_remove_words_match (l : list string) (s w : string) :
  In w l -> word_occurs w s = true ->
  (String.length
     (fold_left (fun name w => re_sub (pat_word w) "" name) l s)
   < String.length s)%nat.
Proof.
  revert s. induction l as [|w0 l IH]; intros s Hin Hocc; [done|].
  cbn [fold_left].
  destruct (word_occurs w0 s) eqn:E0.
  - pose proof (length_remove_words l (re_sub (pat_word w0) "" s)).
    apply negb_true_iff in E0.
    pose proof (length_sub_scan_match (pat_word w0) None s E0).
    unfold re_sub in *. lia.
  - pose proof E0 as E0'. apply negb_false_iff in E0'.
    rewrite (re_sub_no_match _ _ _ E0').
    destruct Hin as [->|Hin]; [congruence|by apply IH].
Qed.

Lemma remove_words_fold (s : string) :
  fold_left (fun name suffix => re_sub (pat_word suffix) "" name)
    COMMON_SUFFIXES
    (fold_left (fun name word => re_sub (pat_word (lower word)) "" name)
       COMMON_REMOVE_WORDS s)
  = fold_left (fun name w => re_sub (pat_word w) "" name) removed_words s.
Proof. reflexivity. Qed.

(** Normalising a string that holds one of the removed words between word
    boundaries makes it shorter.  *)
Lemma normalize_shorter s w :
  normal_form s = true -> In w removed_words ->
  word_occurs w s = true ->
  (String.length (normalize_name (PyStr s)) < String.length s)%nat.
Proof.
  unfold normal_form.
  intros [[[Hk _]%andb_true_iff _]%andb_true_iff _]%andb_true_iff Hin Hocc.
  unfold normalize_name.
  rewrite (lower_kept s Hk).
  rewrite (re_sub_no_match (pat_bracket "(" ")")).
  2:{ apply no_bracket_match, kept_no_bracket; [|done].
      intros c Hc. by destruct (kept_not_bracket c Hc) as (? & ? & ?). }
  rewrite (re_sub_no_match (pat_bracket "[" "]")).
  2:{ apply no_bracket_match, kept_no_bracket; [|done].
      intros c Hc. by destruct (kept_not_bracket c Hc) as (? & ? & ?). }
  rewrite (re_sub_no_match (pat_bracket "{" "}")).
  2:{ apply no_bracket_match, kept_no_bracket; [|done].
      intros c Hc. by destruct (kept_not_bracket c Hc) as (? & ? & ?). }
  rewrite remove_words_fold.
  pose proof (length_remove_words_match removed_words s w Hin Hocc) as H1.
  set (s4 := fold_left _ removed_words s) in *.
  pose proof (length_delete pat_not_kept 0 None s4) as H2.
  fold (re_sub pat_not_kept "" s4) in H2.
  set (s5 := re_sub pat_not_kept "" s4) in *.
  pose proof (length_sub_scan pat_spaces " " 0 None s5 (le_n 1)) as H3.
  fold (re_sub pat_spaces " " s5) in H3.
  pose proof (length_strip (re_sub pat_spaces " " s5)) as H4.
  lia.
Qed.

(** C4, as the specification states it, fails: "c.o" normalises to "co",
    which normalises to the empty string, and "Acme L.T.D." normalises to
    "acme ltd", which normalises to "acme".  The dots keep the suffix
    from being recognised the first time and are gone the second time. *)
Lemma normalize_not_idempotent :
  normalize_name (PyStr "c.o") = "co"
  /\ normalize_name (PyStr (normalize_name (PyStr "c.o"))) = ""
  /\ normalize_name (PyStr (normalize_name (PyStr "c.o")))
     <> normalize_name (PyStr "c.o")
  /\ normalize_name (PyStr "Acme L.T.D.") = "acme ltd"
  /\ normalize_name (PyStr (normalize_name (PyStr "Acme L.T.D."))) = "acme".
Proof.
  split; [vm_compute; reflexivity|].
  split; [vm_compute; reflexivity|].
  split; [vm_compute; discriminate|].
  split; vm_compute; reflexivity.
Qed.

(** C4 (amended): the result of the normaliser always has the shape of a
    normal form (only a-z, 0-9 and single spaces, none at either end), and
    normalising it again gives it back exactly when it holds none of the
    removed words between word boundaries. *)
Theorem normalize_idempotent_when_clear (x : pyobj) :
  normal_form (normalize_name x) = true
  /\ (normalize_name (PyStr (normalize_name x)) = normalize_name x
      <-> forall w : string,
            In w removed_words -> word_occurs w (normalize_name x) = false).
Proof.
  split; [apply normalize_normal_form|]. split.
  - intros Hfix w Hin.
    destruct (word_occurs w (normalize_name x)) eqn:Hocc; [|done].
    pose proof (normalize_shorter _ w (normalize_normal_form x) Hin Hocc).
    rewrite Hfix in *. lia.
  - intros Hw.
    apply normalize_fixpoint; [apply normalize_normal_form|done].
Qed.

Lemma normalize_idempotent_when_clear_witness :
  normalize_name (PyStr (normalize_name (PyStr "Acme (India) Pvt. Ltd.")))
  = normalize_name (PyStr "Acme (India) Pvt. Ltd.").
Proof.
  apply (normalize_idempotent_when_clear (PyStr "Acme (India) Pvt. Ltd.")).
  intros w H. vm_compute in H.
  repeat (destruct H as [<-|H]; [vm_compute; reflexivity|]).
  destruct H.
Defined.

(** ** The order of the report *)






(** * Further properties *)

(** ** The n-grams of a name *)

Lemma length_substring s i n :
  (i + n <= String.length s)%nat -> String.length (substring i n s) = n.
Proof.
  revert i n. induction s as [|c s IH]; intros i n H; simpl in H.
  - by replace i with 0%nat by lia; replace n with 0%nat by lia.
  - destruct i as [|i]; [destruct n as [|n]|]; simpl.
    + reflexivity.
    + rewrite IH; [done|lia].
    + apply IH. lia.
Qed.

Lemma elem_of_get_ngrams_short name n g :
  (String.length name < n)%nat -> g ∈ get_ngrams name n <-> g = name.
Proof.
  intros H. unfold get_ngrams.
  rewrite (proj2 (Nat.ltb_lt _ _) H). apply elem_of_singleton.
Qed.

Lemma elem_of_get_ngrams_long name n g :
  (n <= String.length name)%nat ->
  g ∈ get_ngrams name n <->
  exists i : nat, (i + n <= String.length name)%nat /\ g = substring i n name.
Proof.
  intros H. unfold get_ngrams.
  rewrite (proj2 (Nat.ltb_ge _ _) H).
  rewrite elem_of_list_to_set, list_elem_of_fmap. split.
  - intros (i & -> & Hi). apply elem_of_seq in Hi. exists i. split; [lia|done].
  - intros (i & Hi & ->). exists i. split; [done|]. apply elem_of_seq. lia.
Qed.

Lemma get_ngrams_nonempty name n : exists g : string, g ∈ get_ngrams name n.
Proof.
  destruct (Nat.lt_ge_cases (String.length name) n) as [H|H].
  - exists name. by apply elem_of_get_ngrams_short.
  - exists (substring 0 n name). apply elem_of_get_ngrams_long; [done|].
    exists 0%nat. split; [lia|done].
Qed.

Lemma size_list_to_set_le (l : list string) :
  (size (list_to_set l : gset string) <= length l)%nat.
Proof.
  induction l as [|x l IH].
  - change (size (∅ : gset string) <= 0)%nat. by rewrite size_empty.
  - change (size ({[x]} ∪ (list_to_set l : gset string))
            <= S (length l))%nat.
    rewrite size_union_alt, size_singleton.
    assert (list_to_set l ∖ {[x]} ⊆ (list_to_set l : gset string)) as Hsub.
    { intros y Hy. by apply elem_of_difference in Hy as [? _]. }
    apply subseteq_size in Hsub. lia.
Qed.

(** X1: the n-grams of a name.  A name shorter than [n] has itself as its
    only n-gram; any other name has exactly its substrings of length [n],
    of which there are at most [len - n + 1]; no name has an empty set of
    n-grams. *)
Theorem get_ngrams_spec (name : string) (n : nat) (g : string) :
  ((String.length name < n)%nat ->
   (g ∈ get_ngrams name n <-> g = name)
   /\ size (get_ngrams name n) = 1%nat)
  /\ ((n <= String.length name)%nat ->
      (g ∈ get_ngrams name n <->
       exists i : nat,
         (i + n <= String.length name)%nat /\ g = substring i n name)
      /\ (g ∈ get_ngrams name n -> String.length g = n)
      /\ (size (get_ngrams name n) <= String.length name - n + 1)%nat)
  /\ get_ngrams name n <> ∅.
Proof.
  split; [|split].
  - intros H. split; [by apply elem_of_get_ngrams_short|].
    unfold get_ngrams. rewrite (proj2 (Nat.ltb_lt _ _) H).
    apply size_singleton.
  - intros H. split; [by apply elem_of_get_ngrams_long|]. split.
    + intros Hg. apply elem_of_get_ngrams_long in Hg as (i & Hi & ->);
        [|done].
      by apply length_substring.
    + unfold get_ngrams. rewrite (proj2 (Nat.ltb_ge _ _) H).
      etransitivity; [apply size_list_to_set_le|].
      by rewrite length_fmap, length_seq.
  - destruct (get_ngrams_nonempty name n) as [g' Hg']. set_solver.
Qed.

Lemma get_ngrams_spec_witness :
  ("x" ∈ get_ngrams "x" 2 <-> "x" = "x")
  /\ ("cm" ∈ get_ngrams "acme" 2 -> String.length "cm" = 2%nat).
Proof.
  split.
  - destruct (get_ngrams_spec "x" 2 "x") as [H _].
    apply H. simpl. lia.
  - destruct (get_ngrams_spec "acme" 2 "cm") as (_ & H & _).
    apply H. simpl. lia.
Defined.

(** ** The buckets of the index *)

Lemma index_appends_lookup e (gs : list string)
    (idx : gmap string (list name_tuple)) g :
  NoDup gs ->
  fold_left (index_append e) gs idx !! g
  = if decide (g ∈ gs) then Some (default [] (idx !! g) ++ [e])%list
    else idx !! g.
Proof.
  revert idx. induction gs as [|g0 gs IH]; intros idx Hnd; simpl.
  - destruct (decide (g ∈ [])) as [H|_]; [|done]. by apply elem_of_nil in H.
  - apply NoDup_cons in Hnd as [Hg0 Hnd]. rewrite (IH _ Hnd).
    destruct (decide (g0 = g)) as [<-|Hne].
    + rewrite decide_False by done. rewrite decide_True by (by left).
      apply index_append_lookup_eq.
    + rewrite index_append_lookup_ne by done.
      destruct (decide (g ∈ gs)) as [Hin|Hout].
      * rewrite decide_True by (by right). done.
      * rewrite decide_False; [done|].
        intros [H|H]%elem_of_cons; [congruence|done].
Qed.

Lemma index_entry_lookup n (idx : gmap string (list name_tuple)) e g :
  index_entry n idx e !! g
  = if indexed_under n g e then Some (default [] (idx !! g) ++ [e])%list
    else idx !! g.
Proof.
  unfold index_entry, indexed_under. destruct e as [name norm]. simpl.
  destruct norm as [|a norm]; [done|].
  rewrite index_appends_lookup by apply NoDup_elements.
  destruct (decide (g ∈ elements (get_ngrams (String a norm) n)))
    as [Hin|Hout].
  - apply elem_of_elements in Hin. by rewrite bool_decide_eq_true_2.
  - rewrite bool_decide_eq_false_2; [done|].
    intros H. by apply Hout, elem_of_elements.
Qed.

Lemma index_entries_lookup n (l : list name_tuple)
    (idx : gmap string (list name_tuple)) g :
  fold_left (index_entry n) l idx !! g
  = match List.filter (indexed_under n g) l with
    | [] => idx !! g
    | b => Some (default [] (idx !! g) ++ b)%list
    end.
Proof.
  revert idx. induction l as [|e l IH]; intros idx; simpl; [done|].
  rewrite IH, index_entry_lookup.
  destruct (indexed_under n g e); [|done].
  simpl. destruct (List.filter (indexed_under n g) l) as [|x b]; [done|].
  by rewrite <- app_assoc.
Qed.

Lemma create_ngram_index_lookup_aux (names : list name_tuple) (n : nat)
    (g : string) :
  create_ngram_index names n !! g
  = match List.filter (indexed_under n g) names with
    | [] => None
    | b => Some b
    end.
Proof.
  unfold create_ngram_index. rewrite index_entries_lookup.
  by rewrite lookup_empty.
Qed.

(** X2: what a bucket holds.  The bucket of an n-gram is the list of the
    entries with a non-empty normal form that have this n-gram, in the
    order of the registry and as often as the registry repeats them; an
    n-gram no such entry has is no key of the index, so no bucket is
    empty. *)
Theorem create_ngram_index_lookup (names : list name_tuple) (n : nat)
    (g : string) :
  create_ngram_index names n !! g
  = match List.filter (indexed_under n g) names with
    | [] => None
    | b => Some b
    end.
Proof.
  unfold create_ngram_index. rewrite index_entries_lookup.
  by rewrite lookup_empty.
Qed.

Lemma elem_of_bucket names n g b t :
  create_ngram_index names n !! g = Some b ->
  t ∈ b <-> t ∈ names /\ t.2 <> "" /\ g ∈ get_ngrams t.2 n.
Proof.
  unfold create_ngram_index. rewrite index_entries_lookup, lookup_empty.
  intros Hb.
  assert (b = List.filter (indexed_under n g) names) as ->.
  { destruct (List.filter (indexed_under n g) names); [done|].
    by injection Hb. }
  rewrite list_elem_of_In, filter_In, <- list_elem_of_In.
  unfold indexed_under. destruct (t.2) as [|a s] eqn:E.
  - split; [by intros [_ ?]|]. by intros (_ & ? & _).
  - rewrite bool_decide_eq_true. split.
    + by intros [? ?].
    + by intros (? & _ & ?).
Qed.

(** ** The candidates of a query *)

Lemma elem_of_add_bucket (b : list name_tuple) (cs : gset name_tuple) c :
  c ∈ fold_left (fun candidates candidate => candidates ∪ {[ candidate ]})
        b cs
  <-> c ∈ cs \/ c ∈ b.
Proof.
  revert cs. induction b as [|x b IH]; intros cs; simpl.
  - split; [by left|]. intros [?|H]; [done|]. by apply elem_of_nil in H.
  - rewrite IH, elem_of_union, elem_of_singleton, elem_of_cons. tauto.
Qed.

Lemma elem_of_find_candidates q (idx : gmap string (list name_tuple)) n c :
  c ∈ find_candidates q idx n <->
  q <> "" /\
  exists (g : string) (b : list name_tuple),
    g ∈ get_ngrams q n /\ idx !! g = Some b /\ c ∈ b.
Proof.
  unfold find_candidates. destruct q as [|a q].
  { split; [by intros ?%elem_of_empty|]. by intros [? _]. }
  set (name := String a q).
  assert (forall (gs : list string) (cs : gset name_tuple),
            c ∈ fold_left
                  (fun candidates ngram =>
                     match idx !! ngram with
                     | Some bucket =>
                         fold_left (fun candidates candidate =>
                                      candidates ∪ {[ candidate ]})
                           bucket candidates
                     | None => candidates
                     end) gs cs
            <-> c ∈ cs \/
                exists g b, g ∈ gs /\ idx !! g = Some b /\ c ∈ b) as H.
  { induction gs as [|g gs IH]; intros cs; simpl.
    - split; [by left|]. intros [?|(g & b & Hg & _)]; [done|].
      by apply elem_of_nil in Hg.
    - rewrite IH. destruct (idx !! g) as [b0|] eqn:E.
      + rewrite elem_of_add_bucket. split.
        * intros [[?|?]|(g' & b & Hg & Hb & Hc)]; [by left| |].
          -- right. exists g, b0. split; [by left|done].
          -- right. exists g', b. split; [by right|done].
        * intros [?|(g' & b & Hg & Hb & Hc)]; [by left; left|].
          apply elem_of_cons in Hg as [->|Hg].
          -- left. right. congruence.
          -- right. by exists g', b.
      + split.
        * intros [?|(g' & b & Hg & Hb & Hc)]; [by left|].
          right. exists g', b. split; [by right|done].
        * intros [?|(g' & b & Hg & Hb & Hc)]; [by left|].
          apply elem_of_cons in Hg as [->|Hg]; [congruence|].
          right. by exists g', b. }
  rewrite H. split.
  - intros [?%elem_of_empty|(g & b & Hg & Hb & Hc)]; [done|].
    split; [done|]. exists g, b. by rewrite <- elem_of_elements.
  - intros (_ & g & b & Hg & Hb & Hc). right. exists g, b.
    by rewrite elem_of_elements.
Qed.

(** X3: the candidates of a query over any index.  An empty query has no
    candidates; the candidates of any other query are exactly the entries
    of the buckets of its n-grams. *)
Theorem find_candidates_spec (q : string)
    (idx : gmap string (list name_tuple)) (n : nat) (c : name_tuple) :
  find_candidates "" idx n = ∅
  /\ (c ∈ find_candidates q idx n <->
      q <> "" /\
      exists (g : string) (b : list name_tuple),
        g ∈ get_ngrams q n /\ idx !! g = Some b /\ c ∈ b).
Proof. split; [reflexivity|apply elem_of_find_candidates]. Qed.

Lemma elem_of_candidates_index q names n c :
  c ∈ find_candidates q (create_ngram_index names n) n <->
  q <> "" /\ c ∈ names /\ c.2 <> "" /\ share_ngram n q c.2.
Proof.
  rewrite elem_of_find_candidates. split.
  - intros (Hq & g & b & Hg & Hb & Hc).
    apply (elem_of_bucket _ _ _ _ _ Hb) in Hc as (? & ? & ?).
    repeat split; try done. by exists g.
  - intros (Hq & Hc & Hne & g & Hg & Hg').
    split; [done|].
    assert (indexed_under n g c = true) as Hi.
    { unfold indexed_under. destruct (c.2); [done|].
      by apply bool_decide_eq_true. }
    assert (In c (List.filter (indexed_under n g) names)) as Hin.
    { apply filter_In. split; [by apply list_elem_of_In|done]. }
    exists g, (List.filter (indexed_under n g) names).
    split; [done|]. split; [|by apply list_elem_of_In].
    rewrite create_ngram_index_lookup_aux.
    by destruct (List.filter (indexed_under n g) names).
Qed.

(** ** More on the score *)

Lemma lcs_len_refl a : lcs_len a a = String.length a.
Proof.
  induction a as [|x a IH]; [done|].
  by rewrite lcs_len_cons, Ascii.eqb_refl, IH.
Qed.

(** A common subsequence as long as both strings makes them equal. *)
Lemma lcs_len_full a b :
  lcs_len a b = String.length a -> String.length a = String.length b ->
  a = b.
Proof.
  revert b. induction a as [|x a IH]; intros b.
  - destruct b; [done|]. simpl. lia.
  - destruct b as [|y b]; [simpl; lia|].
    rewrite lcs_len_cons. destruct (Ascii.eqb_spec x y) as [->|Hne].
    + simpl. intros H1 H2. f_equal. apply IH; lia.
    + pose proof (lcs_len_le_l a (String y b)).
      pose proof (lcs_len_le_r (String x a) b). simpl in *. lia.
Qed.

Lemma ratio_of_Qeq a b q :
  (normalized_similarity a b * 100 == q)%Q -> ratio a b = Qred q.
Proof. intros H. unfold ratio. by apply Qred_complete. Qed.

Lemma ratio_refl a : ratio a a = 100%Q.
Proof.
  change 100%Q with (Qred 100). apply ratio_of_Qeq.
  unfold normalized_similarity, normalized_distance, indel_distance.
  rewrite lcs_len_refl.
  destruct (Nat.eqb_spec (String.length a + String.length a) 0) as [E|E].
  - ring.
  - replace (String.length a + String.length a - 2 * String.length a)%nat
      with 0%nat by lia.
    pose proof (inject_nat_pos _ E). simpl (inject_Z (Z.of_nat 0)).
    field. lra.
Qed.

(** The score against a threshold, without the division. *)
Lemma ratio_ge a b (thr : Q) :
  (String.length a + String.length b)%nat <> 0%nat ->
  (thr <= ratio a b)%Q <->
  (thr * inject_Z (Z.of_nat (String.length a + String.length b))
   <= 200 * inject_Z (Z.of_nat (lcs_len a b)))%Q.
Proof.
  intros Hm. rewrite (ratio_lcs a b Hm).
  pose proof (inject_nat_pos _ Hm) as Hpos. split.
  - intros H.
    apply (Qmult_le_compat_r _ _
             (inject_Z (Z.of_nat (String.length a + String.length b))))
      in H; [|lra].
    eapply Qle_trans; [exact H|]. apply Qle_lteq. right. field. lra.
  - intros H. by apply Qle_shift_div_l.
Qed.

(** ** Common subsequences and common bigrams *)

Lemma bigrams_length s g : g ∈ bigrams s -> (2 <= String.length s)%nat.
Proof.
  destruct s as [|x [|y s]]; simpl.
  - by intros ?%elem_of_nil.
  - by intros ?%elem_of_nil.
  - lia.
Qed.

Lemma bigrams_cons x y s :
  bigrams (String x (String y s)) = (x, y) :: bigrams (String y s).
Proof. reflexivity. Qed.

Lemma bigram_ngram s x y :
  (x, y) ∈ bigrams s -> String x (String y "") ∈ get_ngrams s 2.
Proof.
  induction s as [|c1 s IH]; [by intros ?%elem_of_nil|].
  destruct s as [|c2 s]; [by intros ?%elem_of_nil|].
  rewrite bigrams_cons. intros [[= -> ->]|Hin]%elem_of_cons.
  - apply elem_of_get_ngrams_long; [simpl; lia|].
    exists 0%nat. split; [simpl; lia|by destruct s].
  - pose proof (bigrams_length _ _ Hin) as Hlen.
    apply IH in Hin.
    apply elem_of_get_ngrams_long in Hin as (i & Hi & Hg); [|done].
    apply elem_of_get_ngrams_long; [simpl in *; lia|].
    exists (S i). split; [simpl in *; lia|]. exact Hg.
Qed.

(** Without a common bigram, the common subsequences are short: less
    than a third of the two lengths, up to one character, and not even
    that when the strings start differently. *)
Lemma lcs_len_no_common_bigram a b :
  (forall g, g ∈ bigrams a -> g ∉ bigrams b) ->
  (3 * lcs_len a b <= String.length a + String.length b + 1)%nat
  /\ ((forall x, head a = Some x -> head b <> Some x) ->
      (3 * lcs_len a b <= String.length a + String.length b)%nat).
Proof.
  revert b. induction a as [|x a IHa]; intros b.
  - intros _. simpl. lia.
  - induction b as [|y b IHb]; intros Hno.
    + rewrite lcs_len_nil_r. simpl. lia.
    + assert (forall g, g ∈ bigrams a -> g ∉ bigrams (String y b)) as Hno1.
      { intros g Hg. apply Hno. destruct a as [|x' a]; [done|].
        rewrite bigrams_cons. by right. }
      assert (forall g, g ∈ bigrams (String x a) -> g ∉ bigrams b) as Hno2.
      { intros g Hg Hb. apply (Hno g Hg). destruct b as [|y' b]; [done|].
        rewrite bigrams_cons. by right. }
      assert (forall g, g ∈ bigrams a -> g ∉ bigrams b) as Hno3.
      { intros g Hg Hb. apply (Hno1 g Hg). destruct b as [|y' b]; [done|].
        rewrite bigrams_cons. by right. }
      destruct (IHa (String y b) Hno1) as [H1 _].
      destruct (IHb Hno2) as [H2 _].
      destruct (IHa b Hno3) as [_ H3].
      rewrite lcs_len_cons.
      destruct (Ascii.eqb_spec x y) as [->|Hne].
      * split.
        -- assert (3 * lcs_len a b
                   <= String.length a + String.length b)%nat as H.
           { apply H3. intros u Ha Hb.
             destruct a as [|x' a]; [done|]. destruct b as [|y' b]; [done|].
             simpl in Ha, Hb. injection Ha as ->. injection Hb as ->.
             apply (Hno (y, u)); rewrite bigrams_cons; by left. }
           simpl. lia.
        -- intros Hh. by destruct (Hh y eq_refl).
      * simpl in *. lia.
Qed.

Lemma common_bigram_dec a b :
  (exists g, g ∈ bigrams a /\ g ∈ bigrams b)
  \/ (forall g, g ∈ bigrams a -> g ∉ bigrams b).
Proof.
  induction (bigrams a) as [|g l IH].
  - right. by intros g ?%elem_of_nil.
  - destruct (decide (g ∈ bigrams b)) as [Hg|Hg].
    + left. exists g. split; [by left|done].
    + destruct IH as [(g' & Hl & Hb)|IH].
      * left. exists g'. split; [by right|done].
      * right. intros g' [->|Hl]%elem_of_cons; [done|by apply IH].
Qed.

(** A common subsequence of more than a third of the two lengths plus one
    character forces a common 2-gram. *)
Lemma lcs_len_share_bigram a b :
  (String.length a + String.length b + 2 <= 3 * lcs_len a b)%nat ->
  share_ngram 2 a b.
Proof.
  intros H. destruct (common_bigram_dec a b) as [([x y] & Ha & Hb)|Hno].
  - exists (String x (String y "")). split; by apply bigram_ngram.
  - destruct (lcs_len_no_common_bigram a b Hno) as [H1 _]. lia.
Qed.

Lemma share_ngram_refl n a : share_ngram n a a.
Proof. destruct (get_ngrams_nonempty a n) as [g Hg]. by exists g. Qed.

(** Two non-empty strings whose score is above 80 have a 2-gram in
    common. *)
Lemma ratio_share_ngram a b (thr : Q) :
  a <> "" -> b <> "" -> (80 < thr)%Q -> (thr <= ratio a b)%Q ->
  share_ngram 2 a b.
Proof.
  intros Ha Hb Hthr Hr.
  assert (String.length a <> 0%nat) as Hla by (by destruct a).
  assert (String.length b <> 0%nat) as Hlb by (by destruct b).
  assert ((String.length a + String.length b)%nat <> 0%nat) as Hm by lia.
  apply (ratio_ge a b thr Hm) in Hr.
  pose proof (inject_nat_pos _ Hm) as Hpos.
  assert (80 * inject_Z (Z.of_nat (String.length a + String.length b))
          < 200 * inject_Z (Z.of_nat (lcs_len a b)))%Q as Hlt.
  { eapply Qlt_le_trans; [|exact Hr].
    apply Qmult_lt_compat_r; [exact Hpos|exact Hthr]. }
  change 80%Q with (inject_Z 80) in Hlt.
  change 200%Q with (inject_Z 200) in Hlt.
  rewrite <- !inject_Z_mult, <- Zlt_Qlt in Hlt.
  pose proof (lcs_len_le_l a b). pose proof (lcs_len_le_r a b).
  destruct (le_lt_dec (String.length a + String.length b + 2)
              (3 * lcs_len a b)) as [Hbig|Hsmall].
  - by apply lcs_len_share_bigram.
  - assert (a = b) as ->; [|apply share_ngram_refl].
    apply lcs_len_full; lia.
Qed.

(** X4: the candidates of a query over the index of a registry are the
    entries with a non-empty normal form that has an n-gram in common with
    the query; in particular an entry whose normal form is the query is
    always a candidate. *)
Theorem candidates_of_index (q : string) (names : list name_tuple)
    (n : nat) (c : name_tuple) :
  (c ∈ find_candidates q (create_ngram_index names n) n <->
   q <> "" /\ c ∈ names /\ c.2 <> "" /\ share_ngram n q c.2)
  /\ (q <> "" -> c ∈ names -> c.2 = q ->
      c ∈ find_candidates q (create_ngram_index names n) n).
Proof.
  split; [apply elem_of_candidates_index|].
  intros Hq Hc E. apply elem_of_candidates_index.
  rewrite E. repeat split; try done. apply share_ngram_refl.
Qed.

Lemma candidates_of_index_witness :
  twice_entry
    ∈ find_candidates "acme" (create_ngram_index [twice_entry] 2) 2.
Proof.
  apply (candidates_of_index "acme" [twice_entry] 2 twice_entry).
  - discriminate.
  - apply list_elem_of_In. left. reflexivity.
  - reflexivity.
Defined.

(** ** What the main block reports *)

Lemma elem_of_sf_tuples_of_iff sf c :
  c ∈ sf_tuples_of sf <->
  c.1 ∈ sf /\ c.2 = normalize_name c.1 /\ c.2 <> "".
Proof.
  unfold sf_tuples_of. rewrite list_elem_of_filter, list_elem_of_fmap. split.
  - intros (Hne & name & -> & Hin). by repeat split.
  - intros (Hin & E & Hne). split; [done|]. exists c.1.
    split; [|done]. destruct c as [name norm]. simpl in *. by rewrite E.
Qed.

Lemma elem_of_main_matches thr prospects sf r :
  r ∈ process_batch thr prospects (dict (sf_tuples_of sf))
        (create_ngram_index (sf_tuples_of sf) 2) <->
  exists p name : pyobj,
    p ∈ prospects /\ name ∈ sf
    /\ normalize_name p <> "" /\ normalize_name name <> ""
    /\ share_ngram 2 (normalize_name p) (normalize_name name)
    /\ (thr <= ratio (normalize_name p) (normalize_name name))%Q
    /\ r = record_of p (name, normalize_name name).
Proof.
  rewrite elem_of_process_batch. split.
  - intros (p & c & Hp & Hne & Hc & Hs & ->).
    apply elem_of_candidates_index in Hc as (_ & Hc & Hcn & Hsh).
    apply elem_of_sf_tuples_of_iff in Hc as (Hin & E & _).
    destruct c as [name norm]. simpl in *. subst norm.
    exists p, name. repeat split; try done. by apply Qle_bool_iff.
  - intros (p & name & Hp & Hin & Hne & Hnn & Hsh & Hs & ->).
    exists p, (name, normalize_name name). repeat split; try done.
    + apply elem_of_candidates_index. repeat split; try done.
      by apply elem_of_sf_tuples_of_iff.
    + by apply Qle_bool_iff.
Qed.

(** X5: what the main block collects, for any positive batch size: a
    record for a prospect and a registry name exactly when both have a
    non-empty normal form, the two normal forms have a 2-gram in common
    and their score reaches the threshold; the record carries the two raw
    names, the score and the two normal forms. *)
Theorem main_matches_spec (thr : Q) (n : nat)
    (prospects sf_list : list pyobj) :
  exists matches : list MatchRecord,
    main_matches thr (S n) prospects sf_list = Some matches
    /\ forall r : MatchRecord,
         r ∈ matches <->
         exists p name : pyobj,
           p ∈ prospects /\ name ∈ sf_list
           /\ normalize_name p <> "" /\ normalize_name name <> ""
           /\ share_ngram 2 (normalize_name p) (normalize_name name)
           /\ (thr <= ratio (normalize_name p) (normalize_name name))%Q
           /\ r = {| Prospect := p;
                     Matched_Salesforce_Entry := name;
                     Similarity :=
                       ratio (normalize_name p) (normalize_name name);
                     Normalized_Prospect := normalize_name p;
                     Normalized_Salesforce := normalize_name name |}.
Proof.
  eexists. split; [apply main_matches_whole|].
  intros r. apply elem_of_main_matches.
Qed.

(** X6: above a threshold of 80 the 2-gram filter loses nothing: every
    prospect and registry name with non-empty normal forms whose score
    reaches the threshold is reported.  At 80 itself this fails: "ab" and
    "acb" score 80, have no 2-gram in common, and are not reported. *)
Theorem index_lossless (thr : Q) (n : nat) (prospects sf_list : list pyobj) :
  ((80 < thr)%Q ->
   exists matches : list MatchRecord,
     main_matches thr (S n) prospects sf_list = Some matches
     /\ forall p name : pyobj,
          p ∈ prospects -> name ∈ sf_list ->
          normalize_name p <> "" -> normalize_name name <> "" ->
          (thr <= ratio (normalize_name p) (normalize_name name))%Q ->
          record_of p (name, normalize_name name) ∈ matches)
  /\ ratio (normalize_name apart_prospect) (normalize_name apart_name)
     = 80%Q
  /\ main_matches 80 (S n) [apart_prospect] [apart_name] = Some [].
Proof.
  split; [|split].
  - intros Hthr. eexists. split; [apply main_matches_whole|].
    intros p name Hp Hin Hne Hnn Hs. apply elem_of_main_matches.
    exists p, name. repeat split; try done.
    by apply (ratio_share_ngram _ _ thr).
  - vm_compute. reflexivity.
  - rewrite main_matches_whole. vm_compute. reflexivity.
Qed.

Lemma index_lossless_witness :
  exists matches : list MatchRecord,
    main_matches 90 (S 999) scenario_prospects scenario_registry
    = Some matches.
Proof.
  destruct (index_lossless 90 999 scenario_prospects scenario_registry)
    as [H _].
  destruct H as (matches & Hm & _); [reflexivity|].
  by exists matches.
Defined.

(** X7: names that normalise to the same non-empty string are always
    reported, with a score of 100, whatever the threshold up to 100. *)
Theorem duplicates_reported (thr : Q) (n : nat)
    (prospects sf_list : list pyobj) (p name : pyobj) :
  (thr <= 100)%Q ->
  p ∈ prospects -> name ∈ sf_list ->
  normalize_name p <> "" -> normalize_name name = normalize_name p ->
  exists matches : list MatchRecord,
    main_matches thr (S n) prospects sf_list = Some matches
    /\ record_of p (name, normalize_name name) ∈ matches
    /\ Similarity (record_of p (name, normalize_name name)) = 100%Q.
Proof.
  intros Hthr Hp Hin Hne E.
  eexists. split; [apply main_matches_whole|]. split.
  - apply elem_of_main_matches. exists p, name.
    rewrite E. repeat split; try done.
    + apply share_ngram_refl.
    + by rewrite ratio_refl.
  - simpl. rewrite E. apply ratio_refl.
Qed.

Lemma duplicates_reported_witness :
  exists matches : list MatchRecord,
    main_matches 100 (S 999) [PyStr "ACME Inc."] [PyStr "Acme (India) Ltd"]
    = Some matches
    /\ record_of (PyStr "ACME Inc.")
         (PyStr "Acme (India) Ltd", normalize_name (PyStr "Acme (India) Ltd"))
       ∈ matches.
Proof.
  destruct (duplicates_reported 100 999 [PyStr "ACME Inc."]
              [PyStr "Acme (India) Ltd"] (PyStr "ACME Inc.")
              (PyStr "Acme (India) Ltd")) as (matches & Hm & Hr & _).
  - unfold Qle. simpl. lia.
  - apply list_elem_of_In. left. reflexivity.
  - apply list_elem_of_In. left. reflexivity.
  - vm_compute. discriminate.
  - vm_compute. reflexivity.
  - exists matches. split; [exact Hm|exact Hr].
Defined.

(** X8: the score is 100 exactly for equal strings. *)
Theorem ratio_100_iff (a b : string) : ratio a b = 100%Q <-> a = b.
Proof.
  split; [|intros ->; apply ratio_refl].
  intros H.
  destruct (Nat.eq_dec (String.length a + String.length b) 0) as [E|Hm].
  { destruct a; [|simpl in E; lia]. destruct b; [done|simpl in E; lia]. }
  assert (100 <= ratio a b)%Q as Hle by (rewrite H; apply Qle_refl).
  apply (ratio_ge a b 100 Hm) in Hle.
  change 100%Q with (inject_Z 100) in Hle.
  change 200%Q with (inject_Z 200) in Hle.
  rewrite <- !inject_Z_mult, <- Zle_Qle in Hle.
  pose proof (lcs_len_le_l a b). pose proof (lcs_len_le_r a b).
  apply lcs_len_full; lia.
Qed.

(** ** Moving the threshold *)

Lemma filter_filter_impl {A : Type} (f g : A -> bool) (l : list A) :
  (forall x, f x = true -> g x = true) ->
  List.filter f (List.filter g l) = List.filter f l.
Proof.
  intros Hfg. induction l as [|x l IH]; simpl; [done|].
  destruct (g x) eqn:Eg; simpl.
  - by rewrite IH.
  - destruct (f x) eqn:Ef; [|done]. rewrite (Hfg x Ef) in Eg. done.
Qed.

Lemma prospect_matches_raise thr1 thr2 idx p :
  (thr1 <= thr2)%Q ->
  prospect_matches thr2 idx p
  = List.filter (fun r => Qle_bool thr2 (Similarity r))
      (prospect_matches thr1 idx p).
Proof.
  intros Hle. destruct (decide (normalize_name p = "")) as [E|E].
  - by rewrite !(prospect_matches_empty _ _ _ E).
  - rewrite !(prospect_matches_filter _ _ _ E), filter_map_swap.
    f_equal. simpl. symmetry. apply filter_filter_impl.
    intros c H2. apply Qle_bool_iff. apply Qle_bool_iff in H2. lra.
Qed.

Lemma process_batch_raise thr1 thr2 batch d idx :
  (thr1 <= thr2)%Q ->
  process_batch thr2 batch d idx
  = List.filter (fun r => Qle_bool thr2 (Similarity r))
      (process_batch thr1 batch d idx).
Proof.
  intros Hle. rewrite !process_batch_concat, <- concat_filter_map, map_map.
  f_equal. apply map_ext. intros p. by apply prospect_matches_raise.
Qed.

Lemma ratio_bounds a b : (0 <= ratio a b <= 100)%Q.
Proof.
  unfold ratio, normalized_similarity. rewrite Qred_correct.
  pose proof (normalized_distance_bounds a b). lra.
Qed.

(** X9: raising the threshold only removes records.  For thresholds
    [thr1 <= thr2] the matches at [thr2] are the matches at [thr1] whose
    score reaches [thr2], in the same order; above 100 nothing is
    matched. *)
Theorem threshold_monotone (thr1 thr2 : Q) (batch : list pyobj)
    (d : gmap pyobj string) (idx : gmap string (list name_tuple)) :
  ((thr1 <= thr2)%Q ->
   process_batch thr2 batch d idx
   = List.filter (fun r => Qle_bool thr2 (Similarity r))
       (process_batch thr1 batch d idx))
  /\ ((100 < thr1)%Q -> process_batch thr1 batch d idx = []).
Proof.
  split; [apply process_batch_raise|].
  intros Hthr.
  destruct (process_batch thr1 batch d idx) as [|r l] eqn:E; [done|].
  assert (r ∈ process_batch thr1 batch d idx) as Hr by (rewrite E; by left).
  apply elem_of_process_batch in Hr as (p & c & _ & _ & _ & Hs & _).
  apply Qle_bool_iff in Hs.
  pose proof (ratio_bounds (normalize_name p) c.2). lra.
Qed.

Lemma threshold_monotone_witness :
  process_batch 95 [boundary_prospect] ∅
    (create_ngram_index [boundary_entry] 2)
  = List.filter (fun r => Qle_bool 95 (Similarity r))
      (process_batch 90 [boundary_prospect] ∅
         (create_ngram_index [boundary_entry] 2))
  /\ process_batch 101 [boundary_prospect] ∅
       (create_ngram_index [boundary_entry] 2) = [].
Proof.
  split.
  - destruct (threshold_monotone 90 95 [boundary_prospect] ∅
                (create_ngram_index [boundary_entry] 2)) as [H _].
    apply H. unfold Qle. simpl. lia.
  - destruct (threshold_monotone 101 101 [boundary_prospect] ∅
                (create_ngram_index [boundary_entry] 2)) as [_ H].
    apply H. reflexivity.
Defined.

(** ** Empty inputs and the batch size *)

Lemma process_batch_no_names thr prospects sf :
  (forall name, name ∈ sf -> normalize_name name = "") ->
  process_batch thr prospects (dict (sf_tuples_of sf))
    (create_ngram_index (sf_tuples_of sf) 2) = [].
Proof.
  intros Hsf.
  destruct (process_batch _ _ _ _) as [|r l] eqn:E; [done|].
  assert (r ∈ process_batch thr prospects (dict (sf_tuples_of sf))
                (create_ngram_index (sf_tuples_of sf) 2)) as Hr
      by (rewrite E; by left).
  apply elem_of_main_matches in Hr as (p & name & _ & Hin & _ & Hnn & _).
  by destruct (Hnn (Hsf name Hin)).
Qed.

(** X10: the main block fails exactly for a batch size of zero (the step
    of its [range]), even with no prospects at all.  For a positive batch
    size it collects nothing when there are no prospects, and nothing
    when no registry name has a non-empty normal form, in particular for
    an empty registry. *)
Theorem main_matches_edges (thr : Q) (batch_size : nat)
    (prospects sf_list : list pyobj) :
  (main_matches thr batch_size prospects sf_list = None
   <-> batch_size = 0%nat)
  /\ main_matches thr 0 [] sf_list = None
  /\ main_matches thr (S batch_size) [] sf_list = Some []
  /\ main_matches thr (S batch_size) prospects [] = Some []
  /\ ((forall name, name ∈ sf_list -> normalize_name name = "") ->
      main_matches thr (S batch_size) prospects sf_list = Some []).
Proof.
  split; [|split; [reflexivity|split; [|split]]].
  - destruct batch_size as [|n]; [by split|].
    rewrite main_matches_whole. split; [discriminate|lia].
  - rewrite main_matches_whole. reflexivity.
  - rewrite main_matches_whole. f_equal.
    apply process_batch_no_names. by intros name ?%elem_of_nil.
  - intros Hsf. rewrite main_matches_whole. f_equal.
    by apply process_batch_no_names.
Qed.

Lemma main_matches_edges_witness :
  main_matches 90 (S 0) [PyStr "Acme"] [PyStr "Pvt. Ltd."; PyNum 3]
  = Some [].
Proof.
  destruct (main_matches_edges 90 0 [PyStr "Acme"]
              [PyStr "Pvt. Ltd."; PyNum 3]) as (_ & _ & _ & _ & H).
  apply H. intros name Hin. apply list_elem_of_In in Hin.
  destruct Hin as [<-|[<-|[]]]; vm_compute; reflexivity.
Defined.

(** ** More on the normaliser *)

Lemma length_lower s : String.length (lower s) = String.length s.
Proof. induction s as [|c s IH]; simpl; [done|]. by rewrite IH. Qed.

Lemma lower_char_idem c : lower_char (lower_char c) = lower_char c.
Proof. ascii_cases c. Qed.

Lemma lower_idem s : lower (lower s) = lower s.
Proof.
  induction s as [|c s IH]; simpl; [done|]. by rewrite lower_char_idem, IH.
Qed.

(** X11: the normaliser never makes a name longer, and it does not see
    case: two names that agree after lower-casing, such as a name and its
    lower-case or upper-case spelling, have the same normal form. *)
Theorem normalize_shrinks_and_ignores_case (s1 s2 : string) :
  (String.length (normalize_name (PyStr s1)) <= String.length s1)%nat
  /\ normalize_name (PyStr (lower s1)) = normalize_name (PyStr s1)
  /\ (lower s1 = lower s2 ->
      normalize_name (PyStr s1) = normalize_name (PyStr s2)).
Proof.
  split; [|split].
  - unfold normalize_name. rewrite remove_words_fold.
    set (s0 := lower s1).
    pose proof (length_lower s1) as H0. fold s0 in H0.
    pose proof (length_delete (pat_bracket "(" ")") 0 None s0) as H1.
    fold (re_sub (pat_bracket "(" ")") "" s0) in H1.
    set (s1' := re_sub (pat_bracket "(" ")") "" s0) in *.
    pose proof (length_delete (pat_bracket "[" "]") 0 None s1') as H2.
    fold (re_sub (pat_bracket "[" "]") "" s1') in H2.
    set (s2' := re_sub (pat_bracket "[" "]") "" s1') in *.
    pose proof (length_delete (pat_bracket "{" "}") 0 None s2') as H3.
    fold (re_sub (pat_bracket "{" "}") "" s2') in H3.
    set (s3 := re_sub (pat_bracket "{" "}") "" s2') in *.
    pose proof (length_remove_words removed_words s3) as H4.
    set (s4 := fold_left _ removed_words s3) in *.
    pose proof (length_delete pat_not_kept 0 None s4) as H5.
    fold (re_sub pat_not_kept "" s4) in H5.
    set (s5 := re_sub pat_not_kept "" s4) in *.
    pose proof (length_sub_scan pat_spaces " " 0 None s5 (le_n 1)) as H6.
    fold (re_sub pat_spaces " " s5) in H6.
    pose proof (length_strip (re_sub pat_spaces " " s5)) as H7.
    lia.
  - unfold normalize_name. by rewrite lower_idem.
  - intros E. unfold normalize_name. by rewrite E.
Qed.

Lemma normalize_shrinks_and_ignores_case_witness :
  normalize_name (PyStr "ACME Ltd") = normalize_name (PyStr "Acme LTD").
Proof.
  apply (normalize_shrinks_and_ignores_case "ACME Ltd" "Acme LTD").
  reflexivity.
Defined.

Lemma strip_prefix_self w rest : strip_prefix w (w ++ rest) = Some rest.
Proof.
  induction w as [|a w IH]; [done|].
  change (String a w ++ rest) with (String a (w ++ rest)).
  simpl. by rewrite Ascii.eqb_refl.
Qed.

Lemma last_char_default d d' w : w <> "" -> last_char d w = last_char d' w.
Proof. by destruct w. Qed.

(** A pattern whose word ends in a character that is not a word character
    matches only where a word character follows. *)
Lemma pat_word_needs_word w prev rest :
  w <> "" -> word_opt (last_char None w) = false ->
  word_opt (head rest) = false ->
  pat_word w prev (w ++ rest) = None.
Proof.
  intros Hw Hl Hr. unfold pat_word.
  destruct (boundary prev (head (w ++ rest))); [|done].
  rewrite strip_prefix_self, (last_char_default prev None w Hw).
  unfold boundary. by rewrite Hl, Hr.
Qed.

(** X12: the dotted suffixes work only in front of a word character.  A
    suffix that ends in a dot ("pvt. ltd.", "pvt ltd.", "pvt.", "ltd.") is
    not matched where the name ends after it, nor where a space or a
    punctuation mark follows it: the pattern asks for a word boundary
    after the dot. *)
Theorem dotted_suffix_needs_word (w : string) (prev : option ascii)
    (rest : string) :
  In w COMMON_SUFFIXES ->
  last_char None w = Some "."%char ->
  word_opt (head rest) = false ->
  pat_word w prev (w ++ rest) = None
  /\ pat_word w prev w = None.
Proof.
  intros _ Hl Hr.
  assert (w <> "") as Hw by (intros ->; discriminate Hl).
  assert (word_opt (last_char None w) = false) as Hl' by (by rewrite Hl).
  split; [by apply pat_word_needs_word|].
  rewrite <- (append_empty_r w) at 2. by apply pat_word_needs_word.
Qed.

Lemma dotted_suffix_needs_word_witness :
  pat_word "ltd." (Some " "%char) ("ltd." ++ " co") = None
  /\ pat_word "ltd." (Some " "%char) "ltd." = None.
Proof.
  apply (dotted_suffix_needs_word "ltd." (Some " "%char) " co").
  - vm_compute. do 11 right. left. reflexivity.
  - reflexivity.
  - reflexivity.
Defined.

(** ** The shape of the batches *)

Lemma range_from_nonempty fuel start stop step :
  range_from fuel start stop step <> [] -> (start < stop)%nat.
Proof.
  destruct fuel as [|fuel]; simpl; [done|].
  destruct (Nat.ltb_spec start stop); [done|]. done.
Qed.

Lemma batches_shape {A : Type} (l : list A) (n fuel start : nat) :
  let batches :=
    map (fun i => slice l i (i + S n))
      (range_from fuel start (length l) (S n)) in
  Forall (fun b => (1 <= length b <= S n)%nat) batches
  /\ forall (i : nat) (b : list A),
       batches !! i = Some b -> (S i < length batches)%nat ->
       length b = S n.
Proof.
  revert start. induction fuel as [|fuel IH]; intros start; simpl.
  { split; [constructor|]. intros i b. by rewrite lookup_nil. }
  destruct (Nat.ltb_spec start (length l)) as [Hlt|Hge]; simpl.
  2:{ split; [constructor|]. intros i b. by rewrite lookup_nil. }
  destruct (IH (start + S n)%nat) as [IH1 IH2].
  split.
  - constructor; [|exact IH1].
    rewrite slice_take_drop, length_take, length_drop. lia.
  - intros [|i] b; simpl.
    + intros [= <-] Hlen. rewrite slice_take_drop, length_take, length_drop.
      assert (range_from fuel (start + S n) (length l) (S n) <> []) as Hne.
      { intros E. rewrite E in Hlen. simpl in Hlen. lia. }
      apply range_from_nonempty in Hne. lia.
    + intros Hb Hlen. apply (IH2 i b Hb). lia.
Qed.

(** X13: the batches of a positive batch size: put end to end they are
    the prospects, none is empty or longer than the batch size, and all
    but the last have exactly the batch size. *)
Theorem make_batches_shape {A : Type} (l : list A) (n : nat) :
  exists batches : list (list A),
    make_batches (S n) l = Some batches
    /\ concat batches = l
    /\ Forall (fun b => (1 <= length b <= S n)%nat) batches
    /\ (forall (i : nat) (b : list A),
          batches !! i = Some b -> (S i < length batches)%nat ->
          length b = S n)
    /\ (l = [] <-> batches = []).
Proof.
  unfold make_batches, range. eexists. split; [reflexivity|].
  destruct (batches_shape l n (length l) 0) as [H1 H2].
  split; [rewrite batches_concat by lia; reflexivity|].
  split; [exact H1|]. split; [exact H2|].
  split.
  - intros ->. reflexivity.
  - intros E. pose proof (batches_concat l n (length l) 0 (Nat.le_sub_l _ _))
      as Hc.
    rewrite E in Hc. simpl in Hc. by rewrite drop_0 in Hc.
Qed.

Lemma make_batches_shape_witness :
  exists batches : list (list nat),
    make_batches 2 [1; 2; 3]%nat = Some batches
    /\ batches !! 0%nat = Some [1; 2]%nat
    /\ length [1; 2]%nat = 2%nat.
Proof.
  destruct (make_batches_shape [1; 2; 3]%nat 1)
    as (batches & Hm & _ & _ & Hfull & _).
  exists batches.
  assert (batches = [[1; 2]; [3]]%nat) as E.
  { vm_compute in Hm. by injection Hm. }
  split; [exact Hm|]. split; [by rewrite E|].
  apply (Hfull 0%nat); rewrite E; [reflexivity|simpl; lia].
Defined.

(** ** Parenthesised remarks *)

Lemma append_cons c s1 s2 : String c s1 ++ s2 = String c (s1 ++ s2).
Proof. reflexivity. Qed.

Lemma append_empty_l s : "" ++ s = s.
Proof. reflexivity. Qed.

Lemma append_assoc s1 s2 s3 : (s1 ++ s2) ++ s3 = s1 ++ (s2 ++ s3).
Proof.
  induction s1 as [|c s1 IH]; [done|]. rewrite !append_cons. by rewrite IH.
Qed.

Lemma lower_app s1 s2 : lower (s1 ++ s2) = lower s1 ++ lower s2.
Proof.
  induction s1 as [|c s1 IH]; [done|].
  rewrite append_cons. simpl. by rewrite IH.
Qed.

Lemma lower_char_paren c :
  Ascii.eqb (lower_char c) "(" = Ascii.eqb c "("
  /\ Ascii.eqb (lower_char c) ")" = Ascii.eqb c ")".
Proof. ascii_cases c. Qed.

Lemma lower_without (x : ascii) s :
  (forall c, Ascii.eqb (lower_char c) x = Ascii.eqb c x) ->
  string_forall (fun c => negb (Ascii.eqb c x)) (lower s)
  = string_forall (fun c => negb (Ascii.eqb c x)) s.
Proof.
  intros Hx. induction s as [|c s IH]; simpl; [done|]. by rewrite Hx, IH.
Qed.

Lemma sub_scan_bracket_prev o c repl k prev prev' s :
  sub_scan (pat_bracket o c) repl k prev s
  = sub_scan (pat_bracket o c) repl k prev' s.
Proof.
  revert k prev prev'. induction s as [|x s IH]; intros k prev prev'; [done|].
  destruct k as [|k]; cbn [sub_scan]; reflexivity.
Qed.

Lemma sub_scan_skip m repl prev x y :
  sub_scan m repl (String.length x) prev (x ++ y)
  = sub_scan m repl 0 (last_char prev x) y.
Proof.
  revert prev. induction x as [|a x IH]; intros prev; [done|].
  rewrite append_cons. cbn [String.length sub_scan last_char]. apply IH.
Qed.

Lemma find_close_app c inner post :
  string_forall (fun x => negb (Ascii.eqb x c)) inner = true ->
  find_close c (inner ++ String c post) = Some (S (String.length inner)).
Proof.
  induction inner as [|x inner IH]; simpl.
  - intros _. by rewrite Ascii.eqb_refl.
  - intros [Hx Hi]%andb_true_iff. apply negb_true_iff in Hx.
    by rewrite Hx, (IH Hi).
Qed.

Lemma bracket_copy o c prev pre s :
  string_forall (fun x => negb (Ascii.eqb x o)) pre = true ->
  sub_scan (pat_bracket o c) "" 0 prev (pre ++ s)
  = pre ++ sub_scan (pat_bracket o c) "" 0 None s.
Proof.
  revert prev. induction pre as [|x pre IH]; intros prev; simpl.
  - intros _. rewrite append_empty_l. apply sub_scan_bracket_prev.
  - intros [Hx Hp]%andb_true_iff. apply negb_true_iff in Hx.
    rewrite !append_cons. cbn [sub_scan pat_bracket]. rewrite Hx.
    by rewrite (IH _ Hp).
Qed.

Lemma bracket_span o c pre inner post :
  string_forall (fun x => negb (Ascii.eqb x o)) pre = true ->
  string_forall (fun x => negb (Ascii.eqb x c)) inner = true ->
  re_sub (pat_bracket o c) "" (pre ++ String o (inner ++ String c post))
  = pre ++ re_sub (pat_bracket o c) "" post.
Proof.
  intros Hpre Hinner. unfold re_sub. rewrite (bracket_copy _ _ _ _ _ Hpre).
  f_equal. cbn [sub_scan pat_bracket].
  rewrite Ascii.eqb_refl, (find_close_app _ _ _ Hinner).
  cbn [fmap option_fmap option_map Nat.pred]. rewrite append_empty_l.
  replace (inner ++ String c post) with ((inner ++ String c "") ++ post)
    by (by rewrite append_assoc).
  replace (S (String.length inner))
    with (String.length (inner ++ String c "")).
  2:{ rewrite length_append. simpl. lia. }
  rewrite sub_scan_skip. apply sub_scan_bracket_prev.
Qed.

Lemma bracket_unclosed o c prev s :
  string_forall (fun x => negb (Ascii.eqb x c)) s = true ->
  no_match (pat_bracket o c) prev s = true.
Proof.
  revert prev. induction s as [|x s IH]; intros prev; simpl; [done|].
  intros [Hx Hs]%andb_true_iff.
  assert (find_close c s = None) as ->.
  { clear -Hs. induction s as [|y s IH]; simpl in *; [done|].
    apply andb_true_iff in Hs as [Hy Hs]. apply negb_true_iff in Hy.
    by rewrite Hy, (IH Hs). }
  destruct (Ascii.eqb x o); simpl; by apply IH.
Qed.

(** X14: parentheses.  A remark in parentheses does not count: when the
    text before it holds no opening and the remark no closing
    parenthesis, the name has the normal form of the name without the
    remark.  An opening parenthesis that is never closed removes nothing:
    the step leaves a text without a closing parenthesis as it is. *)
Theorem parenthesised_remark (pre inner post s : string) :
  (string_forall (fun x => negb (Ascii.eqb x "(")) pre = true ->
   string_forall (fun x => negb (Ascii.eqb x ")")) inner = true ->
   normalize_name (PyStr (pre ++ String "(" (inner ++ String ")" post)))
   = normalize_name (PyStr (pre ++ post)))
  /\ (string_forall (fun x => negb (Ascii.eqb x ")")) s = true ->
      re_sub (pat_bracket "(" ")") "" s = s).
Proof.
  split.
  - intros Hpre Hinner. unfold normalize_name.
    rewrite !lower_app. change (lower (String "(" (inner ++ String ")" post)))
      with (String "(" (lower (inner ++ String ")" post))).
    rewrite lower_app.
    change (lower (String ")" post)) with (String ")" (lower post)).
    rewrite <- (lower_without "(" pre) in Hpre
      by (intros c; apply lower_char_paren).
    rewrite <- (lower_without ")" inner) in Hinner
      by (intros c; apply lower_char_paren).
    rewrite (bracket_span _ _ _ _ _ Hpre Hinner).
    assert (re_sub (pat_bracket "(" ")") "" (lower pre ++ lower post)
            = lower pre ++ re_sub (pat_bracket "(" ")") "" (lower post))
      as ->; [|done].
    unfold re_sub. by apply bracket_copy.
  - intros Hs. by apply re_sub_no_match, bracket_unclosed.
Qed.

Lemma parenthesised_remark_witness :
  normalize_name (PyStr ("Acme " ++ String "(" ("India" ++ String ")" " Ltd")))
  = normalize_name (PyStr ("Acme " ++ " Ltd"))
  /\ re_sub (pat_bracket "(" ")") "" "acme (india" = "acme (india".
Proof.
  destruct (parenthesised_remark "Acme " "India" " Ltd" "acme (india")
    as [H1 H2].
  split; [apply H1; reflexivity|apply H2; reflexivity].
Defined.

(** ** A score of zero *)

Lemma lcs_len_zero a b :
  lcs_len a b = 0%nat <->
  forall c : ascii,
    In c (list_ascii_of_string a) -> ~ In c (list_ascii_of_string b).
Proof.
  revert b. induction a as [|x a IHa]; intros b.
  - simpl. split; [tauto|done].
  - induction b as [|y b IHb].
    + rewrite lcs_len_nil_r. simpl. split; [tauto|done].
    + rewrite lcs_len_cons. destruct (Ascii.eqb_spec x y) as [->|Hne].
      * split; [done|]. intros H. exfalso. apply (H y); simpl; by left.
      * split.
        -- intros H.
           assert (lcs_len a (String y b) = 0%nat) as H1 by lia.
           assert (lcs_len (String x a) b = 0%nat) as H2 by lia.
           pose proof (proj1 (IHa _) H1) as H1'.
           pose proof (proj1 IHb H2) as H2'.
           intros c [Ex|Hc] [Ey|Hb].
           ++ congruence.
           ++ apply (H2' c); [by left|done].
           ++ apply (H1' c Hc). by left.
           ++ apply (H1' c Hc). by right.
        -- intros H.
           assert (lcs_len a (String y b) = 0%nat) as H1.
           { apply (proj2 (IHa _)). intros c Hc. apply H. by right. }
           assert (lcs_len (String x a) b = 0%nat) as H2.
           { apply (proj2 IHb). intros c Hc Hb. apply (H c Hc). by right. }
           lia.
Qed.

(** X15: the score is 0 exactly when the two strings are not both empty
    and have no character in common. *)
Theorem ratio_0_iff (a b : string) :
  ratio a b = 0%Q <->
  (a <> "" \/ b <> "")
  /\ forall c : ascii,
       In c (list_ascii_of_string a) -> ~ In c (list_ascii_of_string b).
Proof.
  destruct (Nat.eq_dec (String.length a + String.length b) 0) as [E|Hm].
  { assert (a = "") as -> by (destruct a; [done|simpl in E; lia]).
    assert (b = "") as -> by (destruct b; [done|simpl in E; lia]).
    split; [by vm_compute|]. by intros [[?|?] _]. }
  assert (a <> "" \/ b <> "") as Hne.
  { destruct a; [|by left]. destruct b; [done|by right]. }
  rewrite <- lcs_len_zero.
  pose proof (inject_nat_pos _ Hm) as Hpos.
  pose proof (ratio_lcs a b Hm) as Hr.
  split.
  - intros H. split; [done|]. rewrite H in Hr.
    assert (200 * inject_Z (Z.of_nat (lcs_len a b)) == 0)%Q as H0.
    { assert (200 * inject_Z (Z.of_nat (lcs_len a b))
              == (200 * inject_Z (Z.of_nat (lcs_len a b))
                  / inject_Z (Z.of_nat (String.length a + String.length b)))
                 * inject_Z (Z.of_nat (String.length a + String.length b)))%Q
        as -> by (field; lra).
      rewrite <- Hr. ring. }
    change 200%Q with (inject_Z 200) in H0.
    rewrite <- inject_Z_mult in H0. change 0%Q with (inject_Z 0) in H0.
    unfold Qeq, inject_Z in H0. simpl in H0. lia.
  - intros [_ H]. change 0%Q with (Qred 0). apply Qred_complete.
    unfold ratio in Hr. rewrite Qred_correct in Hr. rewrite Hr, H.
    simpl (inject_Z (Z.of_nat 0)). field. lra.
Qed.

(** ** How many records, and in which order *)

Lemma size_set_of_entries_le (l : list name_tuple) :
  (size (set_of_entries l) <= length l)%nat.
Proof.
  unfold set_of_entries. induction l as [|x l IH].
  - change (size (∅ : gset name_tuple) <= 0)%nat. by rewrite size_empty.
  - change (size ({[x]} ∪ (list_to_set l : gset name_tuple))
            <= S (length l))%nat.
    rewrite size_union_alt, size_singleton.
    assert (list_to_set l ∖ {[x]} ⊆ (list_to_set l : gset name_tuple))
      as Hsub.
    { intros y Hy. by apply elem_of_difference in Hy as [? _]. }
    apply subseteq_size in Hsub. lia.
Qed.

Lemma candidates_count q names n :
  (size (find_candidates q (create_ngram_index names n) n)
   <= length names)%nat.
Proof.
  etransitivity; [|apply size_set_of_entries_le].
  apply subseteq_size. intros c Hc.
  apply elem_of_candidates_index in Hc as (_ & Hc & _).
  by apply elem_of_list_to_set.
Qed.

Lemma length_filter_le {A : Type} (f : A -> bool) (l : list A) :
  (length (List.filter f l) <= length l)%nat.
Proof.
  induction l as [|x l IH]; simpl; [done|]. destruct (f x); simpl; lia.
Qed.

Lemma prospect_matches_count thr names p :
  (length (prospect_matches thr (create_ngram_index names 2) p)
   <= length names)%nat.
Proof.
  destruct (decide (normalize_name p = "")) as [E|E].
  - rewrite (prospect_matches_empty _ _ _ E). simpl. lia.
  - rewrite (prospect_matches_filter _ _ _ E), length_map.
    etransitivity; [apply length_filter_le|].
    apply candidates_count.
Qed.

Lemma length_sf_tuples_of sf : (length (sf_tuples_of sf) <= length sf)%nat.
Proof.
  unfold sf_tuples_of. etransitivity; [apply length_filter|].
  by rewrite length_fmap.
Qed.

Lemma prospect_matches_prospect thr idx p :
  Forall (fun r => Prospect r = p) (prospect_matches thr idx p).
Proof.
  destruct (decide (normalize_name p = "")) as [E|E].
  - rewrite (prospect_matches_empty _ _ _ E). constructor.
  - rewrite (prospect_matches_filter _ _ _ E).
    apply List.Forall_forall. intros r Hr.
    by apply in_map_iff in Hr as (c & <- & _).
Qed.

(** X16: the records of a batch come out grouped by prospect, the groups
    in the order of the prospects, and each group holds at most one record
    per registry entry: over the index of a registry there are at most
    [len(batch) * len(registry)] records. *)
Theorem process_batch_grouped (thr : Q) (batch : list pyobj)
    (d : gmap pyobj string) (names : list name_tuple) :
  exists groups : list (list MatchRecord),
    process_batch thr batch d (create_ngram_index names 2) = concat groups
    /\ Forall2 (fun p g =>
                  Forall (fun r => Prospect r = p) g
                  /\ (length g <= length names)%nat)
         batch groups
    /\ (length (process_batch thr batch d (create_ngram_index names 2))
        <= length batch * length names)%nat.
Proof.
  exists (map (prospect_matches thr (create_ngram_index names 2)) batch).
  split; [apply process_batch_concat|]. split.
  - induction batch as [|p batch IH]; simpl; constructor; [|exact IH].
    split; [apply prospect_matches_prospect|apply prospect_matches_count].
  - rewrite process_batch_concat.
    induction batch as [|p batch IH]; simpl; [done|].
    rewrite length_app.
    pose proof (prospect_matches_count thr names p). lia.
Qed.

(** ** Names made of a removed word *)

Lemma removed_word_alone w :
  In w removed_words -> normalize_name (PyStr w) = "".
Proof.
  intros H. vm_compute in H.
  repeat (destruct H as [<-|H]; [vm_compute; reflexivity|]). destruct H.
Qed.

(** X17: a name that is just one of the removed words, in any spelling of
    upper and lower case ("Holdings", "GROUP", "India"), has the empty
    normal form; as a prospect it gets no record, whatever the index. *)
Theorem removed_word_name (s : string) (thr : Q) (d : gmap pyobj string)
    (idx : gmap string (list name_tuple)) :
  In (lower s) removed_words ->
  normalize_name (PyStr s) = ""
  /\ process_batch thr [PyStr s] d idx = [].
Proof.
  intros H.
  assert (normalize_name (PyStr s) = "") as E.
  { transitivity (normalize_name (PyStr (lower s))).
    - unfold normalize_name. by rewrite lower_idem.
    - by apply removed_word_alone. }
  split; [exact E|].
  rewrite process_batch_single. by apply prospect_matches_empty.
Qed.

Lemma removed_word_name_witness :
  normalize_name (PyStr "Holdings") = ""
  /\ process_batch 90 [PyStr "Holdings"] ∅
       (create_ngram_index [twice_entry] 2) = [].
Proof.
  apply (removed_word_name "Holdings" 90 ∅
           (create_ngram_index [twice_entry] 2)).
  vm_compute. do 18 right. left. reflexivity.
Defined.

(** ** From the matches to the report *)

(** X18: the report of a run.  For a positive batch size, whatever order
    the sort returns, the rows of the report are exactly the collected
    records, as many as were collected, each with a score between the
    threshold and 100; the run ends with the message that nothing was
    found exactly when no record was collected. *)
Theorem report_rows (thr : Q) (n : nat) (prospects sf_list : list pyobj)
    (matches : list MatchRecord) (out : report) :
  main_matches thr (S n) prospects sf_list = Some matches ->
  main_output matches out ->
  (forall r : MatchRecord, r ∈ rows_of out <-> r ∈ matches)
  /\ length (rows_of out) = length matches
  /\ Forall (fun r => (thr <= Similarity r <= 100)%Q) (rows_of out)
  /\ (out = NoDuplicates <-> matches = []).
Proof.
  intros Hm Hout.
  assert (Permutation matches (rows_of out)) as Hp.
  { destruct Hout as [->|rows Hne [Hp _]]; [constructor|exact Hp]. }
  split; [|split; [|split]].
  - intros r. by rewrite Hp.
  - by rewrite Hp.
  - rewrite <- Hp. rewrite main_matches_whole in Hm. injection Hm as <-.
    apply List.Forall_forall. intros r Hr. apply list_elem_of_In in Hr.
    apply elem_of_process_batch in Hr as (p & c & _ & _ & _ & Hs & ->).
    apply Qle_bool_iff in Hs. simpl.
    pose proof (ratio_bounds (normalize_name p) c.2). lra.
  - destruct Hout as [->|rows Hne _]; [done|]. split; [discriminate|done].
Qed.

Lemma report_rows_witness :
  length (rows_of (Saved (reverse tie_matches))) = length tie_matches.
Proof.
  apply (report_rows 90 999 [PyStr "Acme"] tie_registry tie_matches
           (Saved (reverse tie_matches))).
  - vm_compute. reflexivity.
  - constructor; [discriminate|]. split.
    + apply perm_swap.
    + repeat constructor; unfold by_score_desc; simpl; lra.
Defined.
